(** * Sentinel-backed multi-client (radix v4, sentinel.go)

    A shallow embedding of the [Sentinel] type of the radix Redis client and
    of the methods that discover and reconcile the topology of a replication
    group: [dialSentinel], [client], [ensureClients], [ensureSentinelAddrs],
    [Clients], [DoSecondary], [Do], [Close] and [NewSentinel].

    Modelling decisions, all local to this file:
    - a Go [map[string]T] is a [gmap string T]; indexing a missing key gives
      the zero value of [T];
    - the order in which [range] visits a map is not specified by Go; every
      [range] takes an [Order], a code that selects one permutation of the
      entries, and every permutation has a code ([shuffle_complete]);
    - a [Client] is an interface value: [None] is the nil interface, [Some p]
      a pool [p]; pools carry the address they were created for and a serial
      number, so that two pools are never confused;
    - methods run in a state-and-trace monad [M]: they read and write the
      [Sentinel] and emit the externally visible events (pool creation, pool
      close, commit, action performed); a Go panic aborts the run;
    - the collaborators ([ConnFunc], [ClientFunc], the Sentinel connection)
      are oracles passed as arguments;
    - a method call is one step of the Sentinel: the sections of two calls
      are not interleaved. [client] is written as its three sections, the
      read-locked one, the call of ClientFunc and the write-locked one, so
      that the lemmas on the write-locked section hold for whatever state
      another task has left. *)

From Stdlib Require Import Ascii String.
From stdpp Require Import base option list strings gmap fin_maps.

Open Scope string_scope.
Open Scope list_scope.

(** ** Errors *)

Abbreviation smap := (gmap string string).

Inductive error : Type :=
| errClosed                                   (* proc.ErrClosed *)
| errNoClients                                (* "no Clients available" *)
| errMalformed (cmd : string) (m : smap)      (* "malformed %q response: %#v" *)
| errCreatingClient (addr : string) (e : error) (* "error creating client for %q: %w" *)
| errExternal (msg : string).                 (* an error of a collaborator *)

Inductive result (A : Type) : Type :=
| Ok (a : A)
| Err (e : error).
Arguments Ok {A} a.
Arguments Err {A} e.

(** ** Pools, connections, oracles *)

Record Pool := mkPool { pool_id : nat; pool_addr : string }.

(** A [Client] interface value; [None] is nil. *)
Abbreviation Client := (option Pool).

(** What a Sentinel connection answers: its own address, the reply to the
    [SENTINEL MASTER]/[SENTINEL SLAVES] pipeline and the reply to
    [SENTINEL SENTINELS]. *)
Record Conn := mkConn {
  Addr : string;
  masterSlaves : result (smap * list smap);
  sentinels : result (list smap)
}.

(** [sc.opts.cf(ctx, "tcp", addr)]. *)
Definition ConnFunc := string → result Conn.

(** [sc.opts.pf(ctx, "tcp", addr)]: [None] when a pool is created, [Some e]
    when the construction fails with [e]. *)
Definition ClientFunc := string → option error.

Record ReplicaSet := mkReplicaSet {
  Primary : Client;
  Secondaries : list Client
}.

(** ** The Sentinel *)

Record Sentinel := mkSentinel {
  closed : bool;                      (* the closed latch of proc *)
  initAddrs : list string;
  name : string;
  primAddr : string;
  clients : gmap string Client;
  sentinelAddrs : gmap string bool;
  poolSeq : nat                       (* pools created so far *)
}.

Definition set_clients (f : gmap string Client → gmap string Client)
    (sc : Sentinel) : Sentinel :=
  mkSentinel (closed sc) (initAddrs sc) (name sc) (primAddr sc)
             (f (clients sc)) (sentinelAddrs sc) (poolSeq sc).

Definition set_topology (prim : string) (cl : gmap string Client)
    (sc : Sentinel) : Sentinel :=
  mkSentinel (closed sc) (initAddrs sc) (name sc) prim cl
             (sentinelAddrs sc) (poolSeq sc).

Definition set_sentinelAddrs (addrs : gmap string bool) (sc : Sentinel) : Sentinel :=
  mkSentinel (closed sc) (initAddrs sc) (name sc) (primAddr sc)
             (clients sc) addrs (poolSeq sc).

Definition set_closed (sc : Sentinel) : Sentinel :=
  mkSentinel true (initAddrs sc) (name sc) (primAddr sc)
             (clients sc) (sentinelAddrs sc) (poolSeq sc).

Definition bump_poolSeq (sc : Sentinel) : Sentinel :=
  mkSentinel (closed sc) (initAddrs sc) (name sc) (primAddr sc)
             (clients sc) (sentinelAddrs sc) (S (poolSeq sc)).

(** Indexing a Go map: the zero value when the key is missing. *)
Definition client_at (m : gmap string Client) (k : string) : Client :=
  default None (m !! k).

Definition field (m : smap) (k : string) : string :=
  default "" (m !! k).

(** ** Events and the monad *)

Inductive Event : Type :=
| EvCreate (p : Pool)                               (* ClientFunc returned p *)
| EvCreateFailed (addr : string) (e : error)        (* ClientFunc failed with e *)
| EvClose (p : Pool)                                (* p.Close() *)
| EvCommit (prim : string) (cl : gmap string Client) (* topology published *)
| EvDo (p : Pool).                                  (* p.Do(ctx, a) *)

Inductive Outcome (A : Type) : Type :=
| Ret (a : A)
| Panic (msg : string).
Arguments Ret {A} a.
Arguments Panic {A} msg.

Definition M (A : Type) : Type := Sentinel → Outcome A * Sentinel * list Event.

Definition ret {A} (a : A) : M A := λ sc, (Ret a, sc, []).

Definition bind {A B} (m : M A) (f : A → M B) : M B := λ sc,
  match m sc with
  | (Ret a, sc', evs) =>
      match f a sc' with
      | (r, sc'', evs') => (r, sc'', evs ++ evs')
      end
  | (Panic msg, sc', evs) => (Panic msg, sc', evs)
  end.

Notation "'let*' x ':=' m 'in' k" := (bind m (λ x, k))
  (at level 10, x name, m at level 100, k at level 200, only parsing).
Notation "'let*' ' pat ':=' m 'in' k" :=
  (bind m (λ x, match x with pat => k end))
  (at level 10, pat pattern, m at level 100, k at level 200, only parsing).

Definition get : M Sentinel := λ sc, (Ret sc, sc, []).
Definition modify (f : Sentinel → Sentinel) : M unit := λ sc, (Ret tt, f sc, []).
Definition emit (ev : Event) : M unit := λ sc, (Ret tt, sc, [ev]).
Definition panic {A} (msg : string) : M A := λ sc, (Panic msg, sc, []).

(** ** Iteration order of [range] over a map *)

Definition Order := list nat.

(** [shuffle code l]: repeatedly move the element at index
    [c mod length l] to the front of the output. *)
Fixpoint shuffle {A} (code : Order) (l : list A) : list A :=
  match code with
  | [] => l
  | c :: code' =>
      match l !! (c `mod` length l) with
      | Some x => x :: shuffle code' (delete (c `mod` length l) l)
      | None => []
      end
  end.

Definition range {V} (o : Order) (m : gmap string V) : list (string * V) :=
  shuffle o (map_to_list m).

(** ** proc: the lock and the closed latch *)

(** Modelled from the spec: internal/proc is not part of the sources.
    [WithRLock] and [WithLock] run the function unless the Sentinel has been
    closed, in which case they return the closed error without running it;
    [vars] is the value the variables captured by the closure keep then. *)
Definition WithRLock {A} (vars : A) (fn : M (A * option error)) : M (A * option error) :=
  let* sc := get in
  if closed sc then ret (vars, Some errClosed) else fn.

Definition WithLock {A} (vars : A) (fn : M (A * option error)) : M (A * option error) :=
  let* sc := get in
  if closed sc then ret (vars, Some errClosed) else fn.

(** Modelled from the spec: proc.Close, not part of the sources. The first
    call sets the latch and runs the finalizer; later calls return the
    closed error. *)
Definition procClose (fn : M (option error)) : M (option error) :=
  let* sc := get in
  if closed sc then ret (Some errClosed)
  else let* _ := modify set_closed in fn.

(** ** net.JoinHostPort *)

Fixpoint hasColon (s : string) : bool :=
  match s with
  | EmptyString => false
  | String c s' => if Ascii.eqb c ":"%char then true else hasColon s'
  end.

(** The Go standard library's net.JoinHostPort: a host with a colon is taken
    for an IPv6 literal and bracketed. *)
Definition JoinHostPort (host port : string) : string :=
  if hasColon host then "[" +:+ host +:+ "]:" +:+ port
  else host +:+ ":" +:+ port.

(** ** dialSentinel *)

(** [for addr := range sc.sentinelAddrs]: assigns the named results [conn]
    and [err] at every dial and returns from the closure at the first
    success. The boolean says whether the closure returned. *)
Fixpoint dialKnown (cf : ConnFunc) (addrs : list string)
    (conn : option Conn) (err : option error)
    : bool * option Conn * option error :=
  match addrs with
  | [] => (false, conn, err)
  | addr :: addrs' =>
      match cf addr with
      | Ok c => (true, Some c, None)
      | Err e => dialKnown cf addrs' None (Some e)
      end
  end.

(** [for _, addr := range sc.initAddrs]: assigns [conn] and the local
    [initErr], never [err]. *)
Fixpoint dialInit (cf : ConnFunc) (addrs : list string) (conn : option Conn)
    : bool * option Conn :=
  match addrs with
  | [] => (false, conn)
  | addr :: addrs' =>
      match cf addr with
      | Ok c => (true, Some c)
      | Err _ => dialInit cf addrs' None
      end
  end.

Definition dialSentinel (o : Order) (cf : ConnFunc)
    : M (option Conn * option error) :=
  WithRLock None (
    let* sc := get in
    match dialKnown cf (range o (sentinelAddrs sc)).*1 None None with
    | (true, conn, _) => ret (conn, None)
    | (false, conn, err) =>
        match dialInit cf (initAddrs sc) conn with
        | (true, conn) => ret (conn, None)
        | (false, conn) => ret (conn, err)
        end
    end).

(** ** client *)

(** [for addr, client = range sc.clients { if addr != sc.primAddr { break } }]:
    the loop assigns the parameter [addr] and the variable [client] of the
    enclosing function. *)
Fixpoint pickSecondary (prim : string) (entries : list (string * Client))
    (addr : string) (client : Client) : string * Client :=
  match entries with
  | [] => (addr, client)
  | (a, c) :: rest =>
      if decide (a ≠ prim) then (a, c) else pickSecondary prim rest a c
  end.

(** The read-locked section of [client]; returns the captured [addr] and
    [client] with the error of [WithRLock]. *)
Definition client_rlock (o : Order) (addr : string)
    : M ((string * Client) * option error) :=
  WithRLock (addr, None) (
    let* sc := get in
    let '(addr, client) :=
      if decide (addr = "")
      then pickSecondary (primAddr sc) (range o (clients sc)) addr None
      else (addr, None) in
    let client :=
      match client with
      | None => client_at (clients sc) (primAddr sc)
      | Some _ => client
      end in
    ret ((addr, client), None)).

(** A call of the ClientFunc: on success a pool that did not exist before. *)
Definition callClientFunc (pf : ClientFunc) (addr : string) : M (result Pool) :=
  match pf addr with
  | Some e => let* _ := emit (EvCreateFailed addr e) in ret (Err e)
  | None =>
      let* sc := get in
      let p := mkPool (poolSeq sc) addr in
      let* _ := modify bump_poolSeq in
      let* _ := emit (EvCreate p) in
      ret (Ok p)
  end.

(** The write-locked section of [client]. *)
Definition client_wlock (addr : string) (newClient : Pool)
    : M (Client * option error) :=
  WithLock None (
    let* sc := get in
    let client := client_at (clients sc) addr in
    let* _ := match client with
              | None => modify (set_clients (insert addr (Some newClient)))
              | Some _ => ret tt
              end in
    ret (client, None)).

Definition client (o : Order) (pf : ClientFunc) (addr : string)
    : M (Client * option error) :=
  let* '((addr, client), err) := client_rlock o addr in
  match err, client with
  | Some e, _ => ret (None, Some e)
  | None, Some p => ret (Some p, None)
  | None, None =>
      if decide (addr = "") then ret (None, Some errNoClients)
      else
        let* r := callClientFunc pf addr in
        match r with
        | Err e => ret (None, Some e)
        | Ok newClient =>
            let* '(client, err) := client_wlock addr newClient in
            match client, err with
            | None, None => ret (Some newClient, None)
            | _, _ =>
                let* _ := emit (EvClose newClient) in
                ret (client, err)
            end
        end
  end.

(** ** sentinelMtoAddr and ensureClients *)

Definition sentinelMtoAddr (m : smap) (cmd : string) : string * option error :=
  if decide (field m "ip" = "" ∨ field m "port" = "")
  then ("", Some (errMalformed cmd m))
  else (JoinHostPort (field m "ip") (field m "port"), None).

(** [for _, secM := range secMM]: adds the address of every replica to
    [newClients] with a nil client, stopping at the first malformed map. *)
Fixpoint secondaryAddrs (secMM : list smap) (newClients : gmap string Client)
    : gmap string Client * option error :=
  match secMM with
  | [] => (newClients, None)
  | secM :: rest =>
      match sentinelMtoAddr secM "SENTINEL SLAVES" with
      | (_, Some e) => (newClients, Some e)
      | (newSecAddr, None) => secondaryAddrs rest (<[newSecAddr := None]> newClients)
      end
  end.

(** [for addr := range newClients]: "ensure all current clients exist". *)
Fixpoint ensureAll (o_cl : Order) (pf : ClientFunc) (addrs : list string)
    (newClients : gmap string Client) : M (gmap string Client * option error) :=
  match addrs with
  | [] => ret (newClients, None)
  | addr :: rest =>
      let* '(client, err) := client o_cl pf addr in
      match err with
      | Some e => ret (newClients, Some (errCreatingClient addr e))
      | None => ensureAll o_cl pf rest (<[addr := client]> newClients)
      end
  end.

(** [for addr, client := range sc.clients] inside the commit: an entry whose
    address is shared is moved over to [newClients], any other is appended
    to [toClose]. *)
Fixpoint carryOver (entries : list (string * Client))
    (newClients : gmap string Client) (toClose : list Client)
    : gmap string Client * list Client :=
  match entries with
  | [] => (newClients, toClose)
  | (addr, client) :: rest =>
      match newClients !! addr with
      | Some _ => carryOver rest (<[addr := client]> newClients) toClose
      | None => carryOver rest newClients (toClose ++ [client])
      end
  end.

(** [for _, client := range toClose { client.Close() }]; calling a method of
    a nil interface panics. *)
Fixpoint closeAll (toClose : list Client) : M unit :=
  match toClose with
  | [] => ret tt
  | Some p :: rest => let* _ := emit (EvClose p) in closeAll rest
  | None :: _ => panic "invalid memory address or nil pointer dereference"
  end.

(** The write-locked section of [ensureClients]. *)
Definition commitClients (o_old : Order) (newPrimAddr : string)
    (newClients : gmap string Client) : M (list Client * option error) :=
  WithLock [] (
    let* sc := get in
    let '(newClients, toClose) :=
      carryOver (range o_old (clients sc)) newClients [] in
    let* _ := modify (set_topology newPrimAddr newClients) in
    let* _ := emit (EvCommit newPrimAddr newClients) in
    ret (toClose, None)).

(** [o_new] orders the range over [newClients], [o_cl] the range inside
    [client], [o_old] the range over [sc.clients] in the commit. The trace
    hook [traceTopoChanged] does not touch the Sentinel and is left out. *)
Definition ensureClients (o_new o_cl o_old : Order) (pf : ClientFunc)
    (conn : Conn) : M (option error) :=
  match masterSlaves conn with
  | Err e => ret (Some e)
  | Ok (primM, secMM) =>
      match sentinelMtoAddr primM "SENTINEL MASTER" with
      | (_, Some e) => ret (Some e)
      | (newPrimAddr, None) =>
          match secondaryAddrs secMM {[ newPrimAddr := None ]} with
          | (_, Some e) => ret (Some e)
          | (newClients, None) =>
              let* '(newClients, err) :=
                ensureAll o_cl pf (range o_new newClients).*1 newClients in
              match err with
              | Some e => ret (Some e)
              | None =>
                  let* '(toClose, err) :=
                    commitClients o_old newPrimAddr newClients in
                  match err with
                  | Some e => ret (Some e)
                  | None => let* _ := closeAll toClose in ret None
                  end
              end
          end
      end
  end.

(** ** ensureSentinelAddrs *)

Definition peerAddrs (self : string) (mm : list smap) : gmap string bool :=
  foldl (λ addrs m, <[JoinHostPort (field m "ip") (field m "port") := true]> addrs)
        {[ self := true ]} mm.

Definition ensureSentinelAddrs (conn : Conn) : M (option error) :=
  match sentinels conn with
  | Err e => ret (Some e)
  | Ok mm =>
      let addrs := peerAddrs (Addr conn) mm in
      let* '(_, err) :=
        WithLock tt (let* _ := modify (set_sentinelAddrs addrs) in
                     ret (tt, None)) in
      ret err
  end.

(** ** The facade: Clients, Do, DoSecondary, Close *)

Fixpoint replicaSet (prim : string) (entries : list (string * Client))
    (rs : ReplicaSet) : ReplicaSet :=
  match entries with
  | [] => rs
  | (addr, client) :: rest =>
      if decide (addr = prim)
      then replicaSet prim rest (mkReplicaSet client (Secondaries rs))
      else replicaSet prim rest (mkReplicaSet (Primary rs) (Secondaries rs ++ [client]))
  end.

Definition Clients (o : Order) : M (gmap string ReplicaSet * option error) :=
  WithRLock ∅ (
    let* sc := get in
    let rs := replicaSet (primAddr sc) (range o (clients sc)) (mkReplicaSet None []) in
    ret ({[ primAddr sc := rs ]}, None)).

Definition SentinelAddrs (o : Order) : M (list string * option error) :=
  WithRLock [] (
    let* sc := get in
    ret ((range o (sentinelAddrs sc)).*1, None)).

(** An action is known here by the error it returns on each pool. *)
Definition Action := Pool → option error.

Definition clientDo (c : Client) (a : Action) : M (option error) :=
  match c with
  | Some p => let* _ := emit (EvDo p) in ret (a p)
  | None => panic "invalid memory address or nil pointer dereference"
  end.

Definition Do (a : Action) : M (option error) :=
  let* '(_, err) :=
    WithRLock tt (
      let* sc := get in
      let* err := clientDo (client_at (clients sc) (primAddr sc)) a in
      ret (tt, err)) in
  ret err.

Definition DoSecondary (o : Order) (pf : ClientFunc) (a : Action)
    : M (option error) :=
  let* '(c, err) := client o pf "" in
  match err with
  | Some e => ret (Some e)
  | None => clientDo c a
  end.

Fixpoint closeClients (entries : list (string * Client)) : M unit :=
  match entries with
  | [] => ret tt
  | (_, Some p) :: rest => let* _ := emit (EvClose p) in closeClients rest
  | (_, None) :: rest => closeClients rest
  end.

Definition Close (o : Order) : M (option error) :=
  procClose (
    let* sc := get in
    let* _ := closeClients (range o (clients sc)) in
    ret None).

(** ** NewSentinel *)

Definition newSentinel (primaryName : string) (addrs : list string) : Sentinel :=
  mkSentinel false addrs primaryName "" ∅
             (foldl (λ m addr, <[addr := true]> m) ∅ addrs) 0.

(** The orders of one reconciliation pass and of a whole construction. *)
Record Orders := mkOrders {
  o_dial : Order; o_new : Order; o_cl : Order; o_old : Order; o_close : Order
}.

(** The body of [NewSentinel] after the struct has been allocated.
    [pubsub] is the error of NewPersistentPubSubConn. *)
Definition bootstrap (os : Orders) (cf : ConnFunc) (pf : ClientFunc)
    (pubsub : option error) : M (option error) :=
  let* sc := get in
  match initAddrs sc with
  | [] => panic "index out of range [0] with length 0"
  | _ :: _ =>
      let* '(conn, err) := dialSentinel (o_dial os) cf in
      match err, conn with
      | Some e, _ => ret (Some e)
      | None, None => panic "invalid memory address or nil pointer dereference"
      | None, Some conn =>
          let* err := ensureSentinelAddrs conn in
          match err with
          | Some e => ret (Some e)
          | None =>
              let* err := ensureClients (o_new os) (o_cl os) (o_old os) pf conn in
              match err with
              | Some e => ret (Some e)
              | None =>
                  match pubsub with
                  | Some e => let* _ := Close (o_close os) in ret (Some e)
                  | None => ret None
                  end
              end
          end
      end
  end.

Definition NewSentinel (os : Orders) (cf : ConnFunc) (pf : ClientFunc)
    (pubsub : option error) (primaryName : string) (addrs : list string)
    : Outcome (option error) * Sentinel * list Event :=
  bootstrap os cf pf pubsub (newSentinel primaryName addrs).

(** ** The topology trace

    Modelled from the spec: the type declarations of package trace are not
    part of the sources. A SentinelNodeInfo has the two fields that
    ensureClients fills, a SentinelTopoChanged the three lists that
    traceTopoChanged fills; [tracer] says whether the TopoChanged hook is
    set, and the result of [traceTopoChanged] is the argument the hook is
    called with, [None] when it is not called. *)

Record SentinelNodeInfo := mkNodeInfo { NodeAddr : string; IsPrimary : bool }.

Global Instance SentinelNodeInfo_eq_dec : EqDecision SentinelNodeInfo.
Proof. solve_decision. Defined.

Record SentinelTopoChanged := mkTopoChanged {
  Added : list SentinelNodeInfo;
  Removed : list SentinelNodeInfo;
  Changed : list SentinelNodeInfo
}.

Abbreviation Topo := (gmap string SentinelNodeInfo).

(** [for addr, prevNodeInfo := range prevTopo]. *)
Fixpoint topoRemovedChanged (newTopo : Topo)
    (entries : list (string * SentinelNodeInfo))
    (removed changed : list SentinelNodeInfo)
    : list SentinelNodeInfo * list SentinelNodeInfo :=
  match entries with
  | [] => (removed, changed)
  | (addr, prevNodeInfo) :: rest =>
      match newTopo !! addr with
      | None =>
          topoRemovedChanged newTopo rest (removed ++ [prevNodeInfo]) changed
      | Some newNodeInfo =>
          if decide (newNodeInfo ≠ prevNodeInfo)
          then topoRemovedChanged newTopo rest removed (changed ++ [newNodeInfo])
          else topoRemovedChanged newTopo rest removed changed
      end
  end.

(** [for addr, newNodeInfo := range newTopo]. *)
Fixpoint topoAdded (prevTopo : Topo)
    (entries : list (string * SentinelNodeInfo))
    (added : list SentinelNodeInfo) : list SentinelNodeInfo :=
  match entries with
  | [] => added
  | (addr, newNodeInfo) :: rest =>
      match prevTopo !! addr with
      | None => topoAdded prevTopo rest (added ++ [newNodeInfo])
      | Some _ => topoAdded prevTopo rest added
      end
  end.

Definition traceTopoChanged (o_prev o_new : Order) (tracer : bool)
    (prevTopo newTopo : Topo) : option SentinelTopoChanged :=
  if tracer then
    let '(removed, changed) :=
      topoRemovedChanged newTopo (range o_prev prevTopo) [] [] in
    let added := topoAdded prevTopo (range o_new newTopo) [] in
    if decide (length added + length removed + length changed = 0)%nat
    then None
    else Some (mkTopoChanged added removed changed)
  else None.

(** ** ensureClients with its trace

    The same function as [ensureClients], written out with the two maps of
    trace nodes that it builds on the way and with the call of
    [traceTopoChanged] that ends it. Its second result is the argument of
    the TopoChanged hook, [None] when the hook is not called. *)

Fixpoint ensureAllT (o_cl : Order) (pf : ClientFunc) (newPrimAddr : string)
    (addrs : list string) (newClients : gmap string Client)
    (newTraceNodes : Topo) : M (gmap string Client * Topo * option error) :=
  match addrs with
  | [] => ret (newClients, newTraceNodes, None)
  | addr :: rest =>
      let* '(client, err) := client o_cl pf addr in
      match err with
      | Some e =>
          ret (newClients, newTraceNodes, Some (errCreatingClient addr e))
      | None =>
          ensureAllT o_cl pf newPrimAddr rest (<[addr := client]> newClients)
            (<[addr := mkNodeInfo addr (bool_decide (addr = newPrimAddr))]>
               newTraceNodes)
      end
  end.

Fixpoint carryOverT (primAddr : string) (entries : list (string * Client))
    (newClients : gmap string Client) (toClose : list Client)
    (prevTraceNodes : Topo) : gmap string Client * list Client * Topo :=
  match entries with
  | [] => (newClients, toClose, prevTraceNodes)
  | (addr, client) :: rest =>
      let prevTraceNodes :=
        <[addr := mkNodeInfo addr (bool_decide (addr = primAddr))]>
          prevTraceNodes in
      match newClients !! addr with
      | Some _ =>
          carryOverT primAddr rest (<[addr := client]> newClients) toClose
                     prevTraceNodes
      | None =>
          carryOverT primAddr rest newClients (toClose ++ [client])
                     prevTraceNodes
      end
  end.

Definition commitClientsT (o_old : Order) (newPrimAddr : string)
    (newClients : gmap string Client)
    : M ((list Client * Topo) * option error) :=
  WithLock ([], ∅) (
    let* sc := get in
    let '(newClients, toClose, prevTraceNodes) :=
      carryOverT (primAddr sc) (range o_old (clients sc)) newClients [] ∅ in
    let* _ := modify (set_topology newPrimAddr newClients) in
    let* _ := emit (EvCommit newPrimAddr newClients) in
    ret ((toClose, prevTraceNodes), None)).

(** [o_tp] and [o_tn] order the two ranges of [traceTopoChanged]. *)
Definition ensureClientsT (o_new o_cl o_old o_tp o_tn : Order) (tracer : bool)
    (pf : ClientFunc) (conn : Conn)
    : M (option error * option SentinelTopoChanged) :=
  match masterSlaves conn with
  | Err e => ret (Some e, None)
  | Ok (primM, secMM) =>
      match sentinelMtoAddr primM "SENTINEL MASTER" with
      | (_, Some e) => ret (Some e, None)
      | (newPrimAddr, None) =>
          match secondaryAddrs secMM {[ newPrimAddr := None ]} with
          | (_, Some e) => ret (Some e, None)
          | (newClients, None) =>
              let* '(newClients, newTraceNodes, err) :=
                ensureAllT o_cl pf newPrimAddr (range o_new newClients).*1
                           newClients ∅ in
              match err with
              | Some e => ret (Some e, None)
              | None =>
                  let* '((toClose, prevTraceNodes), err) :=
                    commitClientsT o_old newPrimAddr newClients in
                  match err with
                  | Some e => ret (Some e, None)
                  | None =>
                      let* _ := closeAll toClose in
                      ret (None,
                           traceTopoChanged o_tp o_tn tracer
                             prevTraceNodes newTraceNodes)
                  end
              end
          end
      end
  end.

(** The trace nodes of a map of clients, given who the primary is. *)
Definition topoOf {V} (prim : string) (m : gmap string V) : Topo :=
  map_imap (λ k _, Some (mkNodeInfo k (bool_decide (k = prim)))) m.

(** The new node of an address that the previous topology holds with
    another node: the test of the first loop of [traceTopoChanged]. *)
Definition changedPair (newTopo : Topo) (kv : string * SentinelNodeInfo)
    : option (string * SentinelNodeInfo) :=
  match newTopo !! kv.1 with
  | Some newNodeInfo =>
      if decide (newNodeInfo ≠ kv.2) then Some (kv.1, newNodeInfo) else None
  | None => None
  end.

Definition roleChanged (prevTopo : Topo) (kv : string * SentinelNodeInfo) : Prop :=
  match prevTopo !! kv.1 with
  | Some prevNodeInfo => kv.2 ≠ prevNodeInfo
  | None => False
  end.

Global Instance roleChanged_dec prevTopo kv : Decision (roleChanged prevTopo kv).
Proof. unfold roleChanged. destruct (prevTopo !! kv.1); apply _. Defined.

(** ** innerSpin

    The loop of [innerSpin] is driven by what happens outside: for every
    iteration a [Pass] gives the replies of the Sentinel connection, the
    behaviour of ClientFunc, the iteration orders, the error of the PING on
    the pub/sub connection and which case of the final [select] fires. The
    deadlines only decide these outcomes and are not modelled. The result
    carries the calls of [testEvent], in order. A script that ends while
    the loop is still waiting gives [StillRunning]. *)

Inductive Wake : Type :=
| WakeTick            (* <-tick.C *)
| WakeSwitchMaster    (* <-sc.pconnCh *)
| WakeDone.           (* <-ctx.Done() *)

Record Pass := mkPass {
  pass_masterSlaves : result (smap * list smap);
  pass_sentinels : result (list smap);
  pass_pf : ClientFunc;
  pass_o1 : Order; pass_o2 : Order; pass_o3 : Order;
  pass_ping : option error;
  pass_wake : Wake
}.

(** The errors of innerSpin: the error of the dial as it is, the others
    wrapped with the stage that failed. *)
Inductive loopError : Type :=
| errPlain (e : error)
| errRetrieving (e : error)   (* "retrieving addresses of sentinel instances: %w" *)
| errCreating (e : error)     (* "creating clients based on sentinel addresses: %w" *)
| errPing (e : error).        (* "calling PING on sentinel instance: %w" *)

Inductive SpinResult : Type :=
| Returned (err : option loopError)
| StillRunning.

Fixpoint spinLoop (addr : string) (switchMaster : bool) (script : list Pass)
    (tests : list string) : M (SpinResult * list string) :=
  match script with
  | [] => ret (StillRunning, tests)
  | p :: rest =>
      let conn := mkConn addr (pass_masterSlaves p) (pass_sentinels p) in
      let* err := ensureSentinelAddrs conn in
      match err with
      | Some e => ret (Returned (Some (errRetrieving e)), tests)
      | None =>
          let* err :=
            ensureClients (pass_o1 p) (pass_o2 p) (pass_o3 p) (pass_pf p) conn in
          match err with
          | Some e => ret (Returned (Some (errCreating e)), tests)
          | None =>
              match pass_ping p with
              | Some e => ret (Returned (Some (errPing e)), tests)
              | None =>
                  let tests :=
                    if switchMaster then tests ++ ["switch-master completed"]
                    else tests in
                  match pass_wake p with
                  | WakeTick => spinLoop addr false rest tests
                  | WakeSwitchMaster => spinLoop addr true rest tests
                  | WakeDone => ret (Returned None, tests)
                  end
              end
          end
      end
  end.

Definition innerSpin (o : Order) (cf : ConnFunc) (script : list Pass)
    : M (SpinResult * list string) :=
  let* '(conn, err) := dialSentinel o cf in
  match err, conn with
  | Some e, _ => ret (Returned (Some (errPlain e)), [])
  | None, None => panic "invalid memory address or nil pointer dereference"
  | None, Some conn => spinLoop (Addr conn) false script []
  end.

(** The passes of a script that a switch-master message woke and that are
    followed by a pass in the script. *)
Fixpoint switchesBefore (script : list Pass) : nat :=
  match script with
  | [] => 0
  | p :: rest =>
      match rest with
      | [] => 0
      | _ :: _ =>
          (match pass_wake p with WakeSwitchMaster => 1 | _ => 0 end
           + switchesBefore rest)%nat
      end
  end.

(** ** Reachable states *)

Definition state_of {A} (x : Outcome A * Sentinel * list Event) : Sentinel := x.1.2.

(** One call of a method of a constructed Sentinel, by the control loop or
    by a caller, with any behaviour of the collaborators and any iteration
    order. *)
Inductive step (sc : Sentinel) : Sentinel → Prop :=
| step_dialSentinel o cf :
    step sc (state_of (dialSentinel o cf sc))
| step_ensureSentinelAddrs conn :
    step sc (state_of (ensureSentinelAddrs conn sc))
| step_ensureClients o1 o2 o3 pf conn :
    step sc (state_of (ensureClients o1 o2 o3 pf conn sc))
| step_Clients o :
    step sc (state_of (Clients o sc))
| step_SentinelAddrs o :
    step sc (state_of (SentinelAddrs o sc))
| step_Do a :
    step sc (state_of (Do a sc))
| step_DoSecondary o pf a :
    step sc (state_of (DoSecondary o pf a sc))
| step_Close o :
    step sc (state_of (Close o sc)).

Inductive reachable : Sentinel → Prop :=
| reachable_new os cf pf pubsub primaryName addrs sc evs :
    NewSentinel os cf pf pubsub primaryName addrs = (Ret None, sc, evs) →
    reachable sc
| reachable_step sc sc' :
    reachable sc → step sc sc' → reachable sc'.

(** The state invariant: the primary has an entry and no entry is nil. *)
Definition wf (sc : Sentinel) : Prop :=
  is_Some (clients sc !! primAddr sc) ∧ ∀ k, clients sc !! k ≠ Some None.

(** What [client] may do to the state: nothing but install pools at
    addresses that had none. *)
Definition grows (sc sc' : Sentinel) : Prop :=
  closed sc' = closed sc ∧ initAddrs sc' = initAddrs sc ∧ name sc' = name sc ∧
  primAddr sc' = primAddr sc ∧ sentinelAddrs sc' = sentinelAddrs sc ∧
  (poolSeq sc ≤ poolSeq sc')%nat ∧
  ∀ k, clients sc' !! k = clients sc !! k ∨
       (client_at (clients sc) k = None ∧ ∃ p, clients sc' !! k = Some (Some p)).

(** ** Predicates used in the statements *)

(** A reply map whose ip or port is missing or empty. *)
Definition malformed (m : smap) : Prop :=
  m !! "ip" = None ∨ m !! "ip" = Some "" ∨
  m !! "port" = None ∨ m !! "port" = Some "".

Global Instance malformed_dec m : Decision (malformed m).
Proof. unfold malformed. apply _. Defined.

(** The error of one dial, nil when it succeeds. *)
Definition dialErr (cf : ConnFunc) (a : string) : option error :=
  match cf a with
  | Err e => Some e
  | Ok _ => None
  end.

(** Traces without a commit, and without a failed ClientFunc call. *)
Definition no_commit (evs : list Event) : Prop :=
  ∀ prim cl, EvCommit prim cl ∉ evs.

Definition no_failure (evs : list Event) : Prop :=
  ∀ a e, EvCreateFailed a e ∉ evs.

(** The address a well-formed reply map stands for. *)
Definition mAddr (m : smap) : string :=
  JoinHostPort (field m "ip") (field m "port").

(** The map of known Sentinels is in order: not empty, all values true. *)
Definition known_ok (m : gmap string bool) : Prop :=
  m ≠ ∅ ∧ ∀ k v, m !! k = Some v → v = true.

(** Every entry of [clients] is a pool created for the address it is
    held under. *)
Definition own_pools (sc : Sentinel) : Prop :=
  ∀ k v, clients sc !! k = Some v → ∃ p, v = Some p ∧ pool_addr p = k.

(** The Sentinel while NewSentinel runs its first pass: open, no primary
    yet, and so far only pools of their own addresses. *)
Definition bootstrapping (sc : Sentinel) : Prop :=
  closed sc = false ∧ primAddr sc = "" ∧ clients sc !! "" = None ∧ own_pools sc.

(** The map of desired addresses that a pass builds from a well-formed
    reply, and the Sentinel as the loop over it leaves it, just before the
    commit. *)
Definition desired (primM : smap) (secMM : list smap) : gmap string Client :=
  (secondaryAddrs secMM {[ mAddr primM := None ]}).1.

Definition beforeCommit (o_new o_cl : Order) (pf : ClientFunc)
    (primM : smap) (secMM : list smap) (sc : Sentinel) : Sentinel :=
  state_of (ensureAll o_cl pf (range o_new (desired primM secMM)).*1
                      (desired primM secMM) sc).

(** ** A replication group used in the examples

    One Sentinel at 10.0.0.2 that answers, one at 10.0.0.1 that does not; a
    primary [P] and a replica [S]. *)
Module Ex.

Definition reply (ip port : string) : smap :=
  <["ip" := ip]> (<["port" := port]> ∅).

Definition P : string := "10.0.0.10:6379".
Definition S : string := "10.0.0.11:6379".
Definition sentinel1 : string := "10.0.0.1:26379".
Definition sentinel2 : string := "10.0.0.2:26379".
Definition refused : error := errExternal "connection refused".

(** The Sentinel reports the primary and no replica. *)
Definition connP : Conn :=
  mkConn sentinel2 (Ok (reply "10.0.0.10" "6379", []))
         (Ok [reply "10.0.0.3" "26379"]).

(** The Sentinel reports the primary and the replica. *)
Definition connPS : Conn :=
  mkConn sentinel2 (Ok (reply "10.0.0.10" "6379", [reply "10.0.0.11" "6379"]))
         (Ok [reply "10.0.0.3" "26379"]).

(** The Sentinel answers SENTINEL MASTER with an empty map and reports a
    peer without ip and port. *)
Definition connBad : Conn :=
  mkConn sentinel2 (Ok (∅, [])) (Ok [reply "10.0.0.3" "26379"; ∅]).

Definition cfDown : ConnFunc := λ _, Err refused.

Definition cf (conn : Conn) : ConnFunc :=
  λ a, if decide (a = sentinel2) then Ok conn else Err refused.

Definition cfBoot : ConnFunc :=
  λ a, if decide (a = sentinel1) then Ok connP else Err refused.

Definition pfOk : ClientFunc := λ _, None.

Definition pfNoS : ClientFunc :=
  λ a, if decide (a = S) then Some refused else None.

Definition act : Action := λ _, None.

Definition orders : Orders := mkOrders [] [] [] [] [].

Definition pool0 : Pool := mkPool 0 P.

Definition known : gmap string bool :=
  {[ sentinel2 := true; "10.0.0.3:26379" := true ]}.

(** The Sentinel inside NewSentinel at the point where it calls
    ensureClients: the known Sentinels have been fetched, there is no
    topology yet. *)
Definition sc0 : Sentinel :=
  mkSentinel false [sentinel1; sentinel2] "mymaster" "" ∅ known 0.

(** Known Sentinel unreachable, no topology yet. *)
Definition scDown : Sentinel :=
  mkSentinel false [sentinel1] "mymaster" "" ∅ {[ sentinel2 := true ]} 0.

(** No known Sentinel at all. *)
Definition scNone : Sentinel :=
  mkSentinel false [sentinel1] "mymaster" "" ∅ ∅ 0.

(** Construction when the group has only its primary, and its result. *)
Definition boot : Outcome (option error) * Sentinel * list Event :=
  NewSentinel orders (cf connP) pfOk None "mymaster" [sentinel1; sentinel2].

Definition sc1 : Sentinel :=
  mkSentinel false [sentinel1; sentinel2] "mymaster" P
             {[ P := Some pool0 ]} known 1.

(** Then the replica [S] appears ... *)
Definition pass2 : Outcome (option error) * Sentinel * list Event :=
  ensureClients [] [] [] pfOk connPS sc1.

Definition sc2 : Sentinel :=
  mkSentinel false [sentinel1; sentinel2] "mymaster" P
             {[ P := Some pool0; S := Some pool0 ]} known 1.

(** ... and disappears again. *)
Definition pass3 : Outcome (option error) * Sentinel * list Event :=
  ensureClients [] [] [] pfOk connP sc2.

(** Construction when the group has its primary and the replica. *)
Definition bootPS : Outcome (option error) * Sentinel * list Event :=
  NewSentinel orders (cf connPS) pfOk None "mymaster" [sentinel1; sentinel2].

Definition scPS : Sentinel :=
  mkSentinel false [sentinel1; sentinel2] "mymaster" P
             {[ P := Some (mkPool 1 P); S := Some (mkPool 0 S) ]} known 2.

(** A first pass in which [P] is visited before [S], the pool of [P] is
    created and the pool of [S] cannot be. *)
Definition passFail : Outcome (option error) * Sentinel * list Event :=
  ensureClients [1] [] [] pfNoS connPS sc0.

Definition scFail : Sentinel :=
  set_clients (insert P (Some pool0)) (bump_poolSeq sc0).

(** A construction in which the pool of [P] is created and the pool of
    [S] cannot be. *)
Definition ordersPS : Orders := mkOrders [] [1] [] [] [].

Definition bootFail : Outcome (option error) * Sentinel * list Event :=
  NewSentinel ordersPS (cf connPS) pfNoS None "mymaster" [sentinel1; sentinel2].

(** Three iterations of the loop: all succeed; the first is woken by the
    tick, the second by a switch-master message reporting [S] as well, the
    third is still waiting. *)
Definition script : list Pass :=
  [ mkPass (masterSlaves connP) (sentinels connP) pfOk [] [] [] None WakeTick;
    mkPass (masterSlaves connP) (sentinels connP) pfOk [] [] [] None
           WakeSwitchMaster;
    mkPass (masterSlaves connPS) (sentinels connPS) pfOk [] [] [] None WakeTick ].

Definition topoP : Topo := {[ P := mkNodeInfo P true ]}.
Definition topoPS : Topo :=
  {[ P := mkNodeInfo P true; S := mkNodeInfo S false ]}.

End Ex.

(** * Properties *)

(** ** Iteration orders *)

Lemma shuffle_perm {A} (code : Order) (l : list A) : shuffle code l ≡ₚ l.
Proof.
  revert l. induction code as [|c code IH]; intros l; simpl; [done|].
  destruct (l !! (c `mod` length l)) as [x|] eqn:Hx.
  - rewrite IH. symmetry. by apply delete_Permutation.
  - destruct l as [|y l]; [done|].
    apply lookup_ge_None in Hx.
    pose proof (Nat.mod_upper_bound c (length (y :: l))) as Hb.
    simpl in *. lia.
Qed.

(** Every order of the entries is the result of some code. *)
Lemma shuffle_complete {A} (l l' : list A) :
  l ≡ₚ l' → ∃ code, shuffle code l = l'.
Proof.
  revert l. induction l' as [|x l' IH]; intros l Hp.
  - apply Permutation_nil_r in Hp. subst. by exists [].
  - assert (x ∈ l) as Hin by (rewrite Hp; left).
    apply list_elem_of_lookup in Hin as [i Hi].
    pose proof (delete_Permutation _ _ _ Hi) as Hd.
    assert (delete i l ≡ₚ l') as Hrest.
    { apply (Permutation_cons_inv (a := x)). by rewrite <- Hd. }
    destruct (IH _ Hrest) as [code Hcode].
    exists (i :: code). simpl.
    apply lookup_lt_Some in Hi as Hlt.
    rewrite Nat.mod_small by done. by rewrite Hi, Hcode.
Qed.

Lemma range_perm {V} (o : Order) (m : gmap string V) :
  range o m ≡ₚ map_to_list m.
Proof. apply shuffle_perm. Qed.

Lemma elem_of_range {V} (o : Order) (m : gmap string V) k v :
  (k, v) ∈ range o m ↔ m !! k = Some v.
Proof. rewrite range_perm. apply elem_of_map_to_list. Qed.

Lemma NoDup_fst_range {V} (o : Order) (m : gmap string V) :
  NoDup (range o m).*1.
Proof. rewrite range_perm. apply NoDup_fst_map_to_list. Qed.

Lemma range_empty {V} (o : Order) : range o (∅ : gmap string V) = [].
Proof.
  apply Permutation_nil_r. rewrite range_perm. by rewrite map_to_list_empty.
Qed.

Lemma elem_of_range_keys {V} (o : Order) (m : gmap string V) k :
  k ∈ (range o m).*1 ↔ is_Some (m !! k).
Proof.
  rewrite list_elem_of_fmap. split.
  - intros [[k' v] [-> Hin]]. apply elem_of_range in Hin. eauto.
  - intros [v Hv]. exists (k, v). split; [done|]. by apply elem_of_range.
Qed.

(** ** dialSentinel *)

Lemma dialKnown_all_fail cf addrs conn err :
  (∀ a, a ∈ addrs → ∃ e, cf a = Err e) →
  dialKnown cf addrs conn err =
    (false,
     match addrs with [] => conn | _ :: _ => None end,
     match last addrs with Some a => dialErr cf a | None => err end).
Proof.
  revert conn err. induction addrs as [|a addrs IH]; intros conn err Hall; [done|].
  destruct (Hall a) as [e He]; [left|].
  cbn [dialKnown]. rewrite He, IH by (intros; apply Hall; by right).
  destruct addrs as [|b addrs].
  - cbn. unfold dialErr. by rewrite He.
  - change (last (a :: b :: addrs)) with (last (b :: addrs)).
    destruct (last (b :: addrs)) eqn:Hl; [done|].
    by apply last_None in Hl.
Qed.

Lemma dialInit_all_fail cf addrs conn :
  (∀ a, a ∈ addrs → ∃ e, cf a = Err e) →
  dialInit cf addrs conn =
    (false, match addrs with [] => conn | _ :: _ => None end).
Proof.
  revert conn. induction addrs as [|a addrs IH]; intros conn Hall; [done|].
  destruct (Hall a) as [e He]; [left|].
  cbn [dialInit]. rewrite He, IH by (intros; apply Hall; by right).
  by destruct addrs.
Qed.

Lemma dialInit_first_ok cf l1 a l2 c conn :
  (∀ b, b ∈ l1 → ∃ e, cf b = Err e) → cf a = Ok c →
  dialInit cf (l1 ++ a :: l2) conn = (true, Some c).
Proof.
  revert conn. induction l1 as [|b l1 IH]; intros conn Hall Ha; cbn [dialInit app].
  - by rewrite Ha.
  - destruct (Hall b) as [e He]; [left|].
    rewrite He. apply IH; [|done]. intros; apply Hall; by right.
Qed.

Lemma dialSentinel_unlocked o cf sc :
  closed sc = false →
  dialSentinel o cf sc =
    (Ret (match dialKnown cf (range o (sentinelAddrs sc)).*1 None None with
          | (true, conn, _) => (conn, None)
          | (false, conn, err) =>
              match dialInit cf (initAddrs sc) conn with
              | (true, conn) => (conn, None)
              | (false, conn) => (conn, err)
              end
          end), sc, []).
Proof.
  intros Hc. unfold dialSentinel, WithRLock, bind, get, ret. rewrite Hc.
  destruct (dialKnown _ _ _ _) as [[[] conn] err]; [done|].
  by destruct (dialInit _ _ _) as [[] conn'].
Qed.

(** C4. When every dial of a known Sentinel address fails: if every dial of
    a bootstrap address fails too, dialSentinel returns no connection and the
    error of the last dial of the loop over the known addresses, whatever the
    bootstrap dials returned; if a bootstrap dial succeeds, it returns the
    connection of the first one that does, with a nil error. *)
Theorem dialSentinel_known_unreachable (o : Order) (cf : ConnFunc) (sc : Sentinel) :
  closed sc = false →
  (∀ a, is_Some (sentinelAddrs sc !! a) → ∃ e, cf a = Err e) →
  ((∀ a, a ∈ initAddrs sc → ∃ e, cf a = Err e) →
     dialSentinel o cf sc =
       (Ret (None, last (range o (sentinelAddrs sc)).*1 ≫= dialErr cf), sc, []))
  ∧
  (∀ l1 a l2 c,
     initAddrs sc = l1 ++ a :: l2 →
     (∀ b, b ∈ l1 → ∃ e, cf b = Err e) → cf a = Ok c →
     dialSentinel o cf sc = (Ret (Some c, None), sc, [])).
Proof.
  intros Hc Hknown.
  assert (∀ a, a ∈ (range o (sentinelAddrs sc)).*1 → ∃ e, cf a = Err e) as Hk.
  { intros a Ha. apply Hknown. by apply elem_of_range_keys in Ha. }
  split.
  - intros Hinit. rewrite dialSentinel_unlocked by done.
    rewrite dialKnown_all_fail by done.
    rewrite dialInit_all_fail by done.
    do 3 f_equal.
    destruct (range o (sentinelAddrs sc)).*1 as [|k ks] eqn:Hks.
    + by destruct (initAddrs sc).
    + assert (is_Some (last (k :: ks))) as [z Hz].
      { rewrite last_is_Some. done. }
      rewrite Hz. cbn. by destruct (initAddrs sc).
  - intros l1 a l2 c Hinit Hl1 Ha. rewrite dialSentinel_unlocked by done.
    rewrite dialKnown_all_fail by done.
    by rewrite Hinit, (dialInit_first_ok _ _ _ _ c).
Qed.

(** C9. With no known Sentinel address and every bootstrap dial failing,
    dialSentinel returns a nil connection and a nil error. *)
Theorem dialSentinel_nil_nil (o : Order) (cf : ConnFunc) (sc : Sentinel) :
  closed sc = false →
  sentinelAddrs sc = ∅ →
  (∀ a, a ∈ initAddrs sc → ∃ e, cf a = Err e) →
  dialSentinel o cf sc = (Ret (None, None), sc, []).
Proof.
  intros Hc He Hinit. rewrite dialSentinel_unlocked by done.
  rewrite He, range_empty. cbn.
  rewrite dialInit_all_fail by done. by destruct (initAddrs sc).
Qed.

(** ** Malformed replies *)

Lemma malformed_field m :
  malformed m ↔ field m "ip" = "" ∨ field m "port" = "".
Proof.
  unfold malformed, field.
  destruct (m !! "ip") as [ip|], (m !! "port") as [port|]; cbn;
    intuition congruence.
Qed.

Lemma sentinelMtoAddr_malformed m cmd :
  malformed m → sentinelMtoAddr m cmd = ("", Some (errMalformed cmd m)).
Proof.
  intros Hm%malformed_field. unfold sentinelMtoAddr. by rewrite decide_True.
Qed.

Lemma sentinelMtoAddr_ok m cmd a :
  sentinelMtoAddr m cmd = (a, None) →
  ¬ malformed m ∧ a = JoinHostPort (field m "ip") (field m "port").
Proof.
  unfold sentinelMtoAddr. rewrite malformed_field.
  case_decide; intros; simplify_eq; done.
Qed.

Lemma sentinelMtoAddr_well_formed m cmd :
  ¬ malformed m →
  sentinelMtoAddr m cmd = (JoinHostPort (field m "ip") (field m "port"), None).
Proof.
  rewrite malformed_field. intros Hm. unfold sentinelMtoAddr. by rewrite decide_False.
Qed.

Lemma secondaryAddrs_malformed secMM newClients :
  (∃ m, m ∈ secMM ∧ malformed m) →
  ∃ m nc, malformed m ∧ m ∈ secMM ∧
    secondaryAddrs secMM newClients = (nc, Some (errMalformed "SENTINEL SLAVES" m)).
Proof.
  revert newClients. induction secMM as [|secM rest IH]; intros nc [m [Hin Hm]].
  - by apply elem_of_nil in Hin.
  - cbn [secondaryAddrs].
    destruct (decide (malformed secM)) as [Hs|Hs].
    + rewrite sentinelMtoAddr_malformed by done.
      exists secM, nc. split; [done|]. split; [left|done].
    + rewrite sentinelMtoAddr_well_formed by done.
      apply elem_of_cons in Hin as [->|Hin]; [done|].
      destruct (IH (<[JoinHostPort (field secM "ip") (field secM "port") := None]> nc))
        as (m' & nc' & Hm' & Hin' & Heq); [eauto|].
      exists m', nc'. split; [done|]. split; [by right|done].
Qed.

(** C5. A SENTINEL MASTER reply, or an element of the SENTINEL SLAVES reply,
    with a missing or empty ip or port makes the pass return the malformed
    error; the Sentinel is left as it was and nothing is committed. *)
Theorem ensureClients_malformed (o1 o2 o3 : Order) (pf : ClientFunc)
    (conn : Conn) (sc : Sentinel) (primM : smap) (secMM : list smap) :
  masterSlaves conn = Ok (primM, secMM) →
  malformed primM ∨ (∃ m, m ∈ secMM ∧ malformed m) →
  ∃ cmd m,
    malformed m ∧ (m = primM ∨ m ∈ secMM) ∧
    ensureClients o1 o2 o3 pf conn sc = (Ret (Some (errMalformed cmd m)), sc, []).
Proof.
  intros Hreply Hbad. unfold ensureClients. rewrite Hreply.
  destruct (decide (malformed primM)) as [Hp|Hp].
  - rewrite sentinelMtoAddr_malformed by done.
    exists "SENTINEL MASTER", primM. eauto.
  - destruct Hbad as [?|Hsec]; [done|].
    rewrite sentinelMtoAddr_well_formed by done.
    destruct (secondaryAddrs_malformed secMM
      {[JoinHostPort (field primM "ip") (field primM "port") := None]} Hsec)
      as (m & nc & Hm & Hin & Heq).
    rewrite Heq. exists "SENTINEL SLAVES", m. eauto.
Qed.

(** ** ensureSentinelAddrs *)

Lemma peerAddrs_lookup self mm k :
  peerAddrs self mm !! k = Some true ↔
  k = self ∨ ∃ m, m ∈ mm ∧ k = JoinHostPort (field m "ip") (field m "port").
Proof.
  unfold peerAddrs.
  assert (∀ acc : gmap string bool,
    foldl (λ addrs m, <[JoinHostPort (field m "ip") (field m "port") := true]> addrs)
          acc mm !! k = Some true ↔
    acc !! k = Some true ∨
    ∃ m, m ∈ mm ∧ k = JoinHostPort (field m "ip") (field m "port")) as Hgen.
  { induction mm as [|m mm IH]; intros acc; cbn [foldl].
    - split; [eauto|]. intros [?|[m [Hin _]]]; [done|]. by apply elem_of_nil in Hin.
    - rewrite IH. rewrite lookup_insert. split.
      + intros [Hl|[m' [Hin ->]]].
        * case_decide; subst; [right; exists m; split; [left|done]|eauto].
        * right. exists m'. split; [by right|done].
      + intros [Hl|[m' [Hin ->]]].
        * left. case_decide; [done|done].
        * apply elem_of_cons in Hin as [->|Hin]; [|eauto].
          left. by rewrite decide_True. }
  rewrite Hgen, lookup_singleton_Some. split.
  - intros [[-> _]|?]; eauto.
  - intros [->|?]; eauto.
Qed.

Lemma peerAddrs_true self mm k v : peerAddrs self mm !! k = Some v → v = true.
Proof.
  unfold peerAddrs.
  generalize (map_Forall_singleton (M := gmap string) (λ _ b, b = true) self true).
  intros [_ H0]. specialize (H0 eq_refl). revert H0.
  generalize ({[self := true]} : gmap string bool).
  induction mm as [|m mm IH]; intros acc Hacc; cbn [foldl].
  - intros Hk. by apply Hacc in Hk.
  - apply IH. by apply map_Forall_insert_2.
Qed.

Lemma ensureSentinelAddrs_no_validation_lemma conn sc mm :
  sentinels conn = Ok mm →
  closed sc = false →
  ensureSentinelAddrs conn sc =
    (Ret None, set_sentinelAddrs (peerAddrs (Addr conn) mm) sc, []) ∧
  ∀ k, is_Some (peerAddrs (Addr conn) mm !! k) ↔
       k = Addr conn ∨ ∃ m, m ∈ mm ∧ k = mAddr m.
Proof.
  intros Hreply Hc. split.
  - unfold ensureSentinelAddrs. rewrite Hreply.
    unfold WithLock, bind, get, ret, modify. by rewrite Hc.
  - intros k. unfold mAddr. rewrite <- peerAddrs_lookup. split; [|eauto].
    intros [v Hv]. by rewrite Hv, (peerAddrs_true _ _ _ _ Hv).
Qed.

(** C10. When SENTINEL SENTINELS succeeds, ensureSentinelAddrs validates
    nothing: it returns no error and commits exactly the address of the
    queried connection together with the joined ip and port of every peer
    map, which is ":" for a peer map that has neither field. *)
Theorem ensureSentinelAddrs_no_validation (conn : Conn) (sc : Sentinel)
    (mm : list smap) :
  sentinels conn = Ok mm →
  closed sc = false →
  ensureSentinelAddrs conn sc =
    (Ret None, set_sentinelAddrs (peerAddrs (Addr conn) mm) sc, [])
  ∧ (∀ k, is_Some (peerAddrs (Addr conn) mm !! k) ↔
          k = Addr conn ∨
          ∃ m, m ∈ mm ∧ k = JoinHostPort (field m "ip") (field m "port"))
  ∧ (∀ m, m ∈ mm → field m "ip" = "" → field m "port" = "" →
          is_Some (peerAddrs (Addr conn) mm !! ":")).
Proof.
  intros Hreply Hc.
  assert (∀ k, is_Some (peerAddrs (Addr conn) mm !! k) ↔
          k = Addr conn ∨
          ∃ m, m ∈ mm ∧ k = JoinHostPort (field m "ip") (field m "port")) as Hkeys.
  { intros k. rewrite <- peerAddrs_lookup. split; [|eauto].
    intros [v Hv]. by rewrite Hv, (peerAddrs_true _ _ _ _ Hv). }
  split; [|split; [done|]].
  - unfold ensureSentinelAddrs. rewrite Hreply.
    unfold WithLock, bind, get, ret, modify. by rewrite Hc.
  - intros m Hin Hip Hport. apply Hkeys. right. exists m.
    split; [done|]. by rewrite Hip, Hport.
Qed.

(** ** client *)

Lemma JoinHostPort_nonempty host port : JoinHostPort host port ≠ "".
Proof.
  unfold JoinHostPort. destruct (hasColon host); [done|].
  by destruct host.
Qed.

(** What [client] does for a non-empty address. The read-locked section
    indexes [clients] at [primAddr], not at [addr]. *)
Lemma client_nonempty_addr o pf addr sc :
  addr ≠ "" →
  client o pf addr sc =
    if closed sc then (Ret (None, Some errClosed), sc, [])
    else
      match client_at (clients sc) (primAddr sc) with
      | Some p => (Ret (Some p, None), sc, [])
      | None =>
          match pf addr with
          | Some e => (Ret (None, Some e), sc, [EvCreateFailed addr e])
          | None =>
              let p := mkPool (poolSeq sc) addr in
              match client_at (clients sc) addr with
              | None =>
                  (Ret (Some p, None),
                   set_clients (insert addr (Some p)) (bump_poolSeq sc),
                   [EvCreate p])
              | Some q =>
                  (Ret (Some q, None), bump_poolSeq sc, [EvCreate p; EvClose p])
              end
          end
      end.
Proof.
  intros Ha.
  unfold client, client_rlock, WithRLock, bind, get, ret.
  destruct (closed sc) eqn:Hc; [done|].
  rewrite decide_False by done.
  destruct (client_at (clients sc) (primAddr sc)) as [p|]; [done|].
  rewrite decide_False by done.
  unfold callClientFunc, bind, get, ret, emit, modify.
  destruct (pf addr) as [e|]; [done|].
  unfold client_wlock, WithLock, bind, get, ret, modify. cbn.
  rewrite Hc. cbn.
  by destruct (client_at (clients sc) addr) as [q|].
Qed.

(** The write-locked section, in any state: an entry that is there for
    [addr] wins and is returned, otherwise the new pool is installed. *)
Lemma client_wlock_unlocked addr newClient sc :
  closed sc = false →
  client_wlock addr newClient sc =
    match client_at (clients sc) addr with
    | Some q => (Ret (Some q, None), sc, [])
    | None =>
        (Ret (None, None), set_clients (insert addr (Some newClient)) sc, [])
    end.
Proof.
  intros Hc. unfold client_wlock, WithLock, bind, get, ret, modify. rewrite Hc.
  by destruct (client_at (clients sc) addr).
Qed.

Lemma pickSecondary_found prim entries addr cl :
  (∃ kv, kv ∈ entries ∧ kv.1 ≠ prim) →
  ∃ k c, (k, c) ∈ entries ∧ k ≠ prim ∧
         pickSecondary prim entries addr cl = (k, c).
Proof.
  revert addr cl. induction entries as [|[a c] rest IH]; intros addr cl [kv [Hin Hne]].
  - by apply elem_of_nil in Hin.
  - cbn [pickSecondary]. destruct (decide (a ≠ prim)) as [Ha|Ha].
    + exists a, c. split; [left|done].
    + apply elem_of_cons in Hin as [->|Hin]; [done|].
      destruct (IH a c) as (k & c' & Hk & Hkne & Heq); [eauto|].
      exists k, c'. split; [by right|done].
Qed.

Lemma pickSecondary_none prim entries addr cl :
  (∀ kv, kv ∈ entries → kv.1 = prim) →
  pickSecondary prim entries addr cl = default (addr, cl) (last entries).
Proof.
  revert addr cl. induction entries as [|[a c] rest IH]; intros addr cl Hall; [done|].
  cbn [pickSecondary]. rewrite decide_False.
  - rewrite IH by (intros; apply Hall; by right).
    destruct rest as [|x r]; [done|].
    change (last ((a, c) :: x :: r)) with (last (x :: r)).
    destruct (last (x :: r)) eqn:Hl; [done|]. by apply last_None in Hl.
  - intros Hne. apply Hne. apply (Hall (a, c)). left.
Qed.

(** What [client] does for the empty address in a well-formed state: it
    returns a pool of [clients] without touching the state, one of another
    address than the primary's whenever there is one. *)
Lemma client_secondary o pf sc :
  wf sc → closed sc = false →
  ∃ k p, clients sc !! k = Some (Some p) ∧
         client o pf "" sc = (Ret (Some p, None), sc, []) ∧
         ((∃ k', k' ≠ primAddr sc ∧ is_Some (clients sc !! k')) → k ≠ primAddr sc).
Proof.
  intros [[c Hprim] Hnonnil] Hc.
  assert (∃ p, c = Some p) as [pp ->].
  { destruct c; [eauto|]. by apply Hnonnil in Hprim. }
  unfold client, client_rlock, WithRLock, bind, get, ret. rewrite Hc.
  rewrite decide_True by done.
  destruct (decide (Exists (λ kv, kv.1 ≠ primAddr sc) (range o (clients sc))))
    as [Hex|Hnone]; rewrite Exists_exists in *.
  - destruct (pickSecondary_found (primAddr sc) _ "" None Hex)
      as (k & c & Hin & Hne & ->).
    apply elem_of_range in Hin.
    destruct c as [p|]; [|by apply Hnonnil in Hin].
    exists k, p. done.
  - rewrite pickSecondary_none.
    + exists (primAddr sc), pp. split; [done|]. split.
      * destruct (last (range o (clients sc))) as [[k c]|] eqn:Hl; cbn.
        -- apply last_Some_elem_of in Hl. apply elem_of_range in Hl as Hk.
           destruct (decide (k = primAddr sc)) as [->|Hne].
           ++ rewrite Hprim in Hk. by simplify_eq.
           ++ exfalso. apply Hnone. by exists (k, c).
        -- unfold client_at. by rewrite Hprim.
      * intros (k' & Hne & [c' Hk']). exfalso. apply Hnone.
        exists (k', c'). split; [by apply elem_of_range|done].
    + intros kv Hin. destruct (decide (kv.1 = primAddr sc)); [done|].
      exfalso. apply Hnone. eauto.
Qed.

(** ** The state changes of client *)

Lemma grows_refl sc : grows sc sc.
Proof. unfold grows. repeat split; auto. Qed.

Lemma grows_trans sc1 sc2 sc3 : grows sc1 sc2 → grows sc2 sc3 → grows sc1 sc3.
Proof.
  intros (Hc1 & Hi1 & Hn1 & Hp1 & Hs1 & Hq1 & Hk1) (Hc2 & Hi2 & Hn2 & Hp2 & Hs2 & Hq2 & Hk2).
  unfold grows. repeat split; try congruence; [lia|].
  intros k. destruct (Hk2 k) as [Heq|[Hnone [p Hp]]].
  - rewrite Heq. apply Hk1.
  - right. split; [|eauto].
    destruct (Hk1 k) as [Heq|[Hnone' _]]; [|done].
    unfold client_at in *. by rewrite <- Heq.
Qed.

Lemma grows_no_nil sc sc' :
  grows sc sc' → (∀ k, clients sc !! k ≠ Some None) → ∀ k, clients sc' !! k ≠ Some None.
Proof.
  intros (_ & _ & _ & _ & _ & _ & Hk) Hnn k.
  destruct (Hk k) as [->|[_ [p ->]]]; [apply Hnn|done].
Qed.

Lemma grows_wf sc sc' : grows sc sc' → wf sc → wf sc'.
Proof.
  intros Hg [Hprim Hnn]. split; [|by eapply grows_no_nil].
  destruct Hg as (_ & _ & _ & Hp & _ & _ & Hk). rewrite Hp.
  destruct (Hk (primAddr sc)) as [->|[_ [p ->]]]; [done|eauto].
Qed.

Lemma grows_keeps_pool sc sc' k p :
  grows sc sc' → clients sc !! k = Some (Some p) → clients sc' !! k = Some (Some p).
Proof.
  intros (_ & _ & _ & _ & _ & _ & Hk) Hp.
  destruct (Hk k) as [->|[Hnone _]]; [done|].
  unfold client_at in Hnone. by rewrite Hp in Hnone.
Qed.

Lemma client_grows o pf addr sc :
  addr ≠ "" → grows sc (state_of (client o pf addr sc)).
Proof.
  intros Ha. rewrite client_nonempty_addr by done.
  destruct (closed sc); [apply grows_refl|].
  destruct (client_at (clients sc) (primAddr sc)); [apply grows_refl|].
  destruct (pf addr); [apply grows_refl|].
  destruct (client_at (clients sc) addr) as [q|] eqn:Hq; cbn.
  - unfold grows; cbn. repeat split; auto.
  - unfold grows; cbn. repeat split; auto.
    intros k. rewrite lookup_insert. case_decide; subst; eauto.
Qed.

(** ** The loops of ensureClients *)

Lemma secondaryAddrs_keys secMM nc nc' :
  secondaryAddrs secMM nc = (nc', None) →
  (∀ k, is_Some (nc !! k) → is_Some (nc' !! k)) ∧
  (∀ k, is_Some (nc' !! k) → is_Some (nc !! k) ∨ k ≠ "") ∧
  (∀ k, is_Some (nc' !! k) ↔
        is_Some (nc !! k) ∨
        ∃ m, m ∈ secMM ∧ k = JoinHostPort (field m "ip") (field m "port")).
Proof.
  revert nc. induction secMM as [|secM rest IH]; intros nc; cbn [secondaryAddrs].
  - intros [= ->]. split; [done|]. split; [eauto|].
    intros k. split; [eauto|]. intros [?|(m & Hin & _)]; [done|].
    by apply elem_of_nil in Hin.
  - destruct (sentinelMtoAddr secM _) as [a [e|]] eqn:Ha; [done|].
    apply sentinelMtoAddr_ok in Ha as [_ ->].
    intros Hrest. apply IH in Hrest as (H1 & H2 & H3).
    split; [|split].
    + intros k Hk. apply H1. rewrite lookup_insert. by case_decide.
    + intros k Hk. destruct (H2 k Hk) as [Hk'|?]; [|by right].
      rewrite lookup_insert in Hk'. case_decide; subst; [|by left].
      right. apply JoinHostPort_nonempty.
    + intros k. rewrite H3, lookup_insert. split.
      * intros [Hk|(m & Hin & ->)].
        -- case_decide; subst; [|by left]. right. exists secM. split; [left|done].
        -- right. exists m. split; [by right|done].
      * intros [Hk|(m & Hin & ->)].
        -- left. by case_decide.
        -- apply elem_of_cons in Hin as [->|Hin]; [|eauto].
           left. by rewrite decide_True.
Qed.

Lemma no_commit_nil : no_commit [].
Proof. intros ?? Hin. by apply elem_of_nil in Hin. Qed.

Lemma no_failure_nil : no_failure [].
Proof. intros ?? Hin. by apply elem_of_nil in Hin. Qed.

Lemma no_commit_app evs1 evs2 :
  no_commit evs1 → no_commit evs2 → no_commit (evs1 ++ evs2).
Proof. intros H1 H2 ?? [?|?]%elem_of_app; [by eapply H1|by eapply H2]. Qed.

Lemma no_failure_app evs1 evs2 :
  no_failure evs1 → no_failure evs2 → no_failure (evs1 ++ evs2).
Proof. intros H1 H2 ?? [?|?]%elem_of_app; [by eapply H1|by eapply H2]. Qed.

(** One call of [client] for a non-empty address. *)
Lemma client_call_spec o pf addr sc r sc' evs :
  addr ≠ "" →
  client o pf addr sc = (r, sc', evs) →
  grows sc sc' ∧ no_commit evs ∧
  ∃ c err, r = Ret (c, err) ∧
    match err with
    | None => (∃ p, c = Some p) ∧ no_failure evs
    | Some e => ∀ a1 e1, EvCreateFailed a1 e1 ∈ evs → a1 = addr ∧ e1 = e
    end.
Proof.
  intros Ha Hrun.
  pose proof (client_grows o pf addr sc Ha) as Hg.
  rewrite Hrun in Hg. split; [done|]. clear Hg.
  rewrite client_nonempty_addr in Hrun by done.
  destruct (closed sc).
  { simplify_eq. split; [apply no_commit_nil|].
    eexists _, _. split; [done|]. intros ?? Hin. by apply elem_of_nil in Hin. }
  destruct (client_at (clients sc) (primAddr sc)) as [p|].
  { simplify_eq. split; [apply no_commit_nil|].
    eexists _, _. split; [done|]. split; [eauto|apply no_failure_nil]. }
  destruct (pf addr) as [e|].
  { simplify_eq. split.
    - intros ?? Hin. by apply list_elem_of_singleton in Hin.
    - eexists _, _. split; [done|].
      intros ?? Hin. apply list_elem_of_singleton in Hin. by simplify_eq. }
  cbn zeta in Hrun.
  destruct (client_at (clients sc) addr) as [q|]; simplify_eq.
  - split.
    + intros ?? Hin. repeat (apply elem_of_cons in Hin as [?|Hin]; [done|]).
      by apply elem_of_nil in Hin.
    + eexists _, _. split; [done|]. split; [eauto|].
      intros ?? Hin. repeat (apply elem_of_cons in Hin as [?|Hin]; [done|]).
      by apply elem_of_nil in Hin.
  - split.
    + intros ?? Hin. by apply list_elem_of_singleton in Hin.
    + eexists _, _. split; [done|]. split; [eauto|].
      intros ?? Hin. by apply list_elem_of_singleton in Hin.
Qed.

Lemma ensureAll_spec o pf addrs nc sc r sc' evs :
  (∀ a, a ∈ addrs → a ≠ "") →
  ensureAll o pf addrs nc sc = (r, sc', evs) →
  grows sc sc' ∧ no_commit evs ∧
  match r with
  | Ret (nc', None) =>
      (∀ k, k ∈ addrs → ∃ p, nc' !! k = Some (Some p)) ∧
      (∀ k, k ∉ addrs → nc' !! k = nc !! k) ∧
      no_failure evs
  | Ret (_, Some e) =>
      ∃ a e', e = errCreatingClient a e' ∧ a ∈ addrs ∧
              ∀ a1 e1, EvCreateFailed a1 e1 ∈ evs → a1 = a ∧ e1 = e'
  | Panic _ => False
  end.
Proof.
  revert nc sc r sc' evs.
  induction addrs as [|addr rest IH]; intros nc sc r sc' evs Hne; cbn [ensureAll].
  - intros [= <- <- <-]. split; [apply grows_refl|]. split; [apply no_commit_nil|].
    split; [intros k Hk; by apply elem_of_nil in Hk|].
    split; [done|apply no_failure_nil].
  - unfold bind.
    destruct (client o pf addr sc) as [[r0 sc0] evs0] eqn:Hcall.
    apply client_call_spec in Hcall as (Hg0 & Hnc0 & c & err & -> & Herr);
      [|apply Hne; left].
    destruct err as [e|].
    { intros [= <- <- <-]. split; [done|].
      split; [rewrite app_nil_r; done|].
      exists addr, e. split; [done|]. split; [left|].
      rewrite app_nil_r. done. }
    destruct Herr as [[p ->] Hnf0].
    destruct (ensureAll o pf rest _ sc0) as [[r1 sc1] evs1] eqn:Hrest.
    intros [= <- <- <-].
    apply IH in Hrest as (Hg1 & Hnc1 & Hr); [|intros; apply Hne; by right].
    split; [by eapply grows_trans|]. split; [by apply no_commit_app|].
    destruct r1 as [[nc1 [e|]]|]; [| |done].
    + destruct Hr as (a & e' & -> & Hin & Hev).
      exists a, e'. split; [done|]. split; [by right|].
      intros a1 e1 [Hin1|Hin1]%elem_of_app; [by apply Hnf0 in Hin1|by apply Hev].
    + destruct Hr as (Hin & Hout & Hev). split; [|split].
      * intros k [->|Hk]%elem_of_cons; [|by apply Hin].
        destruct (decide (addr ∈ rest)); [by apply Hin|].
        rewrite Hout, lookup_insert_eq by done. eauto.
      * intros k Hk. rewrite not_elem_of_cons in Hk. destruct Hk.
        rewrite Hout, lookup_insert_ne by done. done.
      * by apply no_failure_app.
Qed.

Lemma carryOver_spec entries nc tc nc' tc' :
  carryOver entries nc tc = (nc', tc') →
  (∀ k, is_Some (nc' !! k) ↔ is_Some (nc !! k)) ∧
  (∀ k, k ∉ entries.*1 → nc' !! k = nc !! k) ∧
  (NoDup entries.*1 →
   ∀ k v, (k, v) ∈ entries → is_Some (nc !! k) → nc' !! k = Some v) ∧
  tc' = tc ++ (filter (λ kv, nc !! kv.1 = None) entries).*2.
Proof.
  revert nc tc. induction entries as [|[a c] rest IH]; intros nc tc; cbn [carryOver].
  - intros [= <- <-]. split; [done|]. split; [done|]. split.
    + intros _ k v Hin. by apply elem_of_nil in Hin.
    + by rewrite app_nil_r.
  - destruct (nc !! a) as [x|] eqn:Hx; intros Hrest;
      apply IH in Hrest as (Hdom & Hout & Hin & Htc).
    + assert (∀ k, is_Some (<[a:=c]> nc !! k) ↔ is_Some (nc !! k)) as Hsame.
      { intros k. rewrite lookup_insert. case_decide; subst; [|done].
        rewrite Hx. split; eauto. }
      split; [intros k; by rewrite Hdom|]. split; [|split].
      * intros k Hk. cbn in Hk. rewrite not_elem_of_cons in Hk. destruct Hk.
        by rewrite Hout, lookup_insert_ne.
      * intros Hnd k v Hkv Hk. cbn in Hnd. apply NoDup_cons in Hnd as [Ha Hnd].
        apply elem_of_cons in Hkv as [[= -> ->]|Hkv].
        -- by rewrite Hout, lookup_insert_eq.
        -- apply Hin; [done..|]. by apply Hsame.
      * rewrite Htc. f_equal. rewrite filter_cons_False by (cbn; by rewrite Hx).
        f_equal. apply list_filter_iff. intros [k v]; cbn.
        rewrite !eq_None_not_Some. by rewrite Hsame.
    + split; [done|]. split; [|split].
      * intros k Hk. cbn in Hk. rewrite not_elem_of_cons in Hk. destruct Hk.
        by apply Hout.
      * intros Hnd k v Hkv Hk. cbn in Hnd. apply NoDup_cons in Hnd as [Ha Hnd].
        apply elem_of_cons in Hkv as [[= -> ->]|Hkv].
        -- rewrite Hx in Hk. by destruct Hk.
        -- by apply Hin.
      * rewrite Htc, filter_cons_True by done. cbn. by rewrite <- app_assoc.
Qed.

Lemma closeAll_spec toClose sc :
  ∃ r evs,
    closeAll toClose sc = (r, sc, evs) ∧
    (∀ ev, ev ∈ evs → ∃ p, ev = EvClose p ∧ Some p ∈ toClose) ∧
    ((∀ c, c ∈ toClose → c ≠ None) →
     r = Ret tt ∧ evs = EvClose <$> omap id toClose).
Proof.
  induction toClose as [|[p|] rest IH]; cbn [closeAll].
  - exists (Ret tt), []. split; [done|]. split; [|done].
    intros ev Hin. by apply elem_of_nil in Hin.
  - destruct IH as (r & evs & Hrun & Hev & Hok).
    exists r, (EvClose p :: evs). split; [|split].
    + unfold bind, emit. by rewrite Hrun.
    + intros ev [->|Hin]%elem_of_cons.
      * exists p. split; [done|left].
      * destruct (Hev ev Hin) as (q & -> & Hq). exists q. split; [done|by right].
    + intros Hnn. destruct Hok as [-> ->]; [intros; apply Hnn; by right|]. done.
  - exists (Panic "invalid memory address or nil pointer dereference"), [].
    split; [done|]. split.
    + intros ev Hin. by apply elem_of_nil in Hin.
    + intros Hnn. exfalso. by apply (Hnn None); [left|].
Qed.

Lemma commitClients_unlocked o newPrimAddr nc sc :
  closed sc = false →
  commitClients o newPrimAddr nc sc =
    (Ret ((carryOver (range o (clients sc)) nc []).2, None),
     set_topology newPrimAddr (carryOver (range o (clients sc)) nc []).1 sc,
     [EvCommit newPrimAddr (carryOver (range o (clients sc)) nc []).1]).
Proof.
  intros Hc. unfold commitClients, WithLock, bind, get, ret, modify, emit.
  rewrite Hc. by destruct (carryOver _ _ _).
Qed.

Lemma commitClients_closed o newPrimAddr nc sc :
  closed sc = true →
  commitClients o newPrimAddr nc sc = (Ret ([], Some errClosed), sc, []).
Proof.
  intros Hc. unfold commitClients, WithLock, bind, get, ret. by rewrite Hc.
Qed.

(** ** One pass of ensureClients

    A pass either returns an error, in which case the Sentinel has at most
    grown by pools installed by [client] and nothing was committed, or it
    goes through the commit. *)
Lemma ensureClients_run o1 o2 o3 pf conn sc r sc' evs :
  ensureClients o1 o2 o3 pf conn sc = (r, sc', evs) →
  ((∃ e, r = Ret (Some e)) ∧ grows sc sc' ∧ no_commit evs ∧
   (∀ a e1, EvCreateFailed a e1 ∈ evs → r = Ret (Some (errCreatingClient a e1))))
  ∨
  (∃ primM secMM sc1 nc evs1 r2 evs2,
     masterSlaves conn = Ok (primM, secMM) ∧
     closed sc = false ∧ grows sc sc1 ∧
     sc' = set_topology (mAddr primM) nc sc1 ∧
     evs = evs1 ++ EvCommit (mAddr primM) nc :: evs2 ∧
     no_commit evs1 ∧ no_failure evs1 ∧
     (∀ k, is_Some (nc !! k) ↔ k = mAddr primM ∨ ∃ m, m ∈ secMM ∧ k = mAddr m) ∧
     (∀ k v, clients sc1 !! k = Some v → is_Some (nc !! k) → nc !! k = Some v) ∧
     (∀ k, clients sc1 !! k = None → is_Some (nc !! k) →
           ∃ p, nc !! k = Some (Some p)) ∧
     closeAll (filter (λ kv, nc !! kv.1 = None) (range o3 (clients sc1))).*2 sc'
       = (r2, sc', evs2) ∧
     r = match r2 with Ret _ => Ret None | Panic msg => Panic msg end).
Proof.
  unfold ensureClients.
  destruct (masterSlaves conn) as [[primM secMM]|e0] eqn:Hreply.
  2:{ intros [= <- <- <-]. left. split; [eauto|]. split; [apply grows_refl|].
      split; [apply no_commit_nil|]. intros ?? Hin. by apply elem_of_nil in Hin. }
  destruct (decide (malformed primM)) as [Hp|Hp].
  { rewrite sentinelMtoAddr_malformed by done.
    intros [= <- <- <-]. left. split; [eauto|]. split; [apply grows_refl|].
    split; [apply no_commit_nil|]. intros ?? Hin. by apply elem_of_nil in Hin. }
  rewrite sentinelMtoAddr_well_formed by done. fold (mAddr primM).
  destruct (secondaryAddrs secMM _) as [nc0 [e0|]] eqn:Hsec.
  { intros [= <- <- <-]. left. split; [eauto|]. split; [apply grows_refl|].
    split; [apply no_commit_nil|]. intros ?? Hin. by apply elem_of_nil in Hin. }
  apply secondaryAddrs_keys in Hsec as (_ & Hne & Hkeys).
  unfold bind.
  destruct (ensureAll o2 pf _ nc0 sc) as [[r1 sc1] evs1] eqn:Hall.
  apply ensureAll_spec in Hall as (Hg1 & Hnc1 & Hr1).
  2:{ intros a Ha%elem_of_range_keys. destruct (Hne a Ha) as [Hs|?]; [|done].
      apply lookup_singleton_is_Some in Hs as <-.
      apply JoinHostPort_nonempty. }
  destruct r1 as [[nc1 [e1|]]|]; [| |done].
  { intros [= <- <- <-]. rewrite app_nil_r. left.
    destruct Hr1 as (a & e' & -> & _ & Hev).
    split; [eauto|]. split; [done|]. split; [done|].
    intros a1 e1 Hin. by destruct (Hev a1 e1 Hin) as [-> ->]. }
  destruct Hr1 as (Hin1 & Hout1 & Hnf1).
  assert (closed sc1 = closed sc) as Hcl by apply Hg1.
  destruct (closed sc) eqn:Hc.
  { rewrite commitClients_closed by done.
    intros [= <- <- <-]. rewrite app_nil_r. left.
    split; [eauto|]. split; [done|]. split; [done|].
    intros a1 e1 Hin. by apply Hnf1 in Hin. }
  rewrite commitClients_unlocked by done.
  destruct (carryOver (range o3 (clients sc1)) nc1 []) as [nc tc] eqn:Hcarry.
  apply carryOver_spec in Hcarry as (Hdom & Hout & Hin & Htc). cbn [fst snd].
  assert (∀ k, is_Some (nc1 !! k) ↔ is_Some (nc0 !! k)) as Hdom1.
  { intros k. destruct (decide (k ∈ (range o1 nc0).*1)) as [Hk|Hk].
    - destruct (Hin1 k Hk) as [p ->]. apply elem_of_range_keys in Hk. split; eauto.
    - by rewrite Hout1. }
  assert (tc = (filter (λ kv, nc !! kv.1 = None) (range o3 (clients sc1))).*2) as Htc'.
  { rewrite Htc. cbn. f_equal. apply list_filter_iff. intros [k v]; cbn.
    by rewrite !eq_None_not_Some, Hdom. }
  destruct (closeAll_spec tc (set_topology (mAddr primM) nc sc1))
    as (r2 & evs2 & Hclose & _ & _).
  rewrite Hclose. intros Hrun. right.
  exists primM, secMM, sc1, nc, evs1, r2, evs2.
  assert (r = match r2 with Ret _ => Ret None | Panic msg => Panic msg end ∧
          sc' = set_topology (mAddr primM) nc sc1 ∧
          evs = evs1 ++ EvCommit (mAddr primM) nc :: evs2) as (-> & -> & ->).
  { destruct r2; cbn in Hrun; simplify_eq; by rewrite ?app_nil_r. }
  split; [done|]. split; [done|]. split; [done|]. split; [done|].
  split; [done|].
  split; [done|]. split; [done|]. split.
  { intros k. rewrite Hdom, Hdom1, Hkeys, lookup_singleton_is_Some.
    unfold mAddr. split; intros [?|?]; eauto. }
  split.
  { intros k v Hk Hs. apply Hin.
    - apply NoDup_fst_range.
    - by apply elem_of_range.
    - by apply Hdom. }
  split.
  { intros k Hk Hs. rewrite Hout.
    - apply Hin1. apply elem_of_range_keys. by apply Hdom1, Hdom.
    - rewrite elem_of_range_keys, Hk. by intros [? ?]. }
  split; [by rewrite <- Htc'|]. by destruct r2.
Qed.

(** ** The invariant *)

Lemma dialSentinel_run o cf sc :
  ∃ res, dialSentinel o cf sc = (Ret res, sc, []).
Proof.
  destruct (closed sc) eqn:Hc.
  - unfold dialSentinel, WithRLock, bind, get, ret. rewrite Hc. eauto.
  - rewrite dialSentinel_unlocked by done. eauto.
Qed.

Lemma ensureSentinelAddrs_run conn sc :
  ∃ err sc',
    ensureSentinelAddrs conn sc = (Ret err, sc', []) ∧
    closed sc' = closed sc ∧ primAddr sc' = primAddr sc ∧
    clients sc' = clients sc.
Proof.
  unfold ensureSentinelAddrs. destruct (sentinels conn) as [mm|e].
  - unfold WithLock, bind, get, ret, modify.
    destruct (closed sc) eqn:Hc; cbn; eexists _, _; (split; [reflexivity|]);
      cbn; auto.
  - unfold ret. eauto 10.
Qed.

Lemma closeClients_run entries sc :
  ∃ evs, closeClients entries sc = (Ret tt, sc, evs).
Proof.
  induction entries as [|[k [p|]] rest [evs IH]]; cbn [closeClients].
  - by exists [].
  - unfold bind, emit. rewrite IH. eauto.
  - eauto.
Qed.

Lemma Close_run o sc :
  ∃ err sc' evs,
    Close o sc = (Ret err, sc', evs) ∧
    primAddr sc' = primAddr sc ∧ clients sc' = clients sc.
Proof.
  unfold Close, procClose, bind, get, ret, modify.
  destruct (closed sc); [eauto 10|].
  destruct (closeClients_run (range o (clients (set_closed sc))) (set_closed sc))
    as [evs ->]. cbn. eauto 10.
Qed.

Lemma committed_wf prim nc sc1 :
  (∀ k, clients sc1 !! k ≠ Some None) →
  is_Some (nc !! prim) →
  (∀ k v, clients sc1 !! k = Some v → is_Some (nc !! k) → nc !! k = Some v) →
  (∀ k, clients sc1 !! k = None → is_Some (nc !! k) → ∃ p, nc !! k = Some (Some p)) →
  wf (set_topology prim nc sc1).
Proof.
  intros Hnn Hprim Hold Hnew. split; [done|]. cbn. intros k Hk.
  destruct (clients sc1 !! k) as [v|] eqn:Hv.
  - rewrite (Hold k v) in Hk by (done || by rewrite Hk). simplify_eq.
    by apply Hnn in Hv.
  - destruct (Hnew k) as [p Hp]; [done|by rewrite Hk|]. by rewrite Hp in Hk.
Qed.

(** A pass that does not return an error establishes the invariant, from
    any state without nil entries. *)
Lemma ensureClients_establishes_wf o1 o2 o3 pf conn sc r sc' evs :
  (∀ k, clients sc !! k ≠ Some None) →
  ensureClients o1 o2 o3 pf conn sc = (r, sc', evs) →
  (∀ e, r ≠ Ret (Some e)) →
  wf sc'.
Proof.
  intros Hnn Hrun Hr. apply ensureClients_run in Hrun as [([e ->] & _)|Hc].
  - by destruct (Hr e).
  - destruct Hc as (primM & secMM & sc1 & nc & evs1 & r2 & evs2 &
      _ & _ & Hg & -> & _ & _ & _ & Hkeys & Hold & Hnew & _).
    apply committed_wf; [by eapply grows_no_nil| |done..].
    apply Hkeys. by left.
Qed.

Lemma ensureClients_preserves_wf o1 o2 o3 pf conn sc :
  wf sc → wf (state_of (ensureClients o1 o2 o3 pf conn sc)).
Proof.
  intros Hwf.
  destruct (ensureClients o1 o2 o3 pf conn sc) as [[r sc'] evs] eqn:Hrun.
  unfold state_of; cbn.
  destruct (ensureClients_run _ _ _ _ _ _ _ _ _ Hrun) as [(_ & Hg & _)|Hc].
  - by eapply grows_wf.
  - destruct Hc as (primM & secMM & sc1 & nc & evs1 & r2 & evs2 &
      _ & _ & Hg & -> & _ & _ & _ & Hkeys & Hold & Hnew & _).
    apply committed_wf; [eapply grows_no_nil; [done|apply Hwf]| |done..].
    apply Hkeys. by left.
Qed.

Lemma DoSecondary_state o pf a sc :
  wf sc → state_of (DoSecondary o pf a sc) = sc.
Proof.
  intros Hwf. unfold DoSecondary, bind.
  destruct (closed sc) eqn:Hc.
  - unfold client, client_rlock, WithRLock, bind, get, ret. by rewrite Hc.
  - destruct (client_secondary o pf sc Hwf Hc) as (k & p & _ & -> & _).
    done.
Qed.

Lemma step_wf sc sc' : wf sc → step sc sc' → wf sc'.
Proof.
  intros Hwf Hstep. destruct Hstep.
  - destruct (dialSentinel_run o cf sc) as [res ->]. done.
  - destruct (ensureSentinelAddrs_run conn sc) as (err & sc' & -> & _ & Hp & Hcl).
    unfold wf, state_of; cbn. by rewrite Hp, Hcl.
  - by apply ensureClients_preserves_wf.
  - unfold Clients, WithRLock, bind, get, ret. by destruct (closed sc).
  - unfold SentinelAddrs, WithRLock, bind, get, ret. by destruct (closed sc).
  - unfold Do, WithRLock, clientDo, bind, get, ret, emit, panic.
    destruct (closed sc); [done|].
    by destruct (client_at (clients sc) (primAddr sc)).
  - by rewrite DoSecondary_state.
  - destruct (Close_run o sc) as (err & sc' & evs & -> & Hp & Hcl).
    unfold wf, state_of; cbn. by rewrite Hp, Hcl.
Qed.

Lemma NewSentinel_wf os cf pf pubsub primaryName addrs sc evs :
  NewSentinel os cf pf pubsub primaryName addrs = (Ret None, sc, evs) → wf sc.
Proof.
  unfold NewSentinel, bootstrap, bind, get.
  destruct addrs as [|addr0 addrs]; [done|].
  change (initAddrs (newSentinel primaryName (addr0 :: addrs))) with (addr0 :: addrs).
  assert (∀ k, clients (newSentinel primaryName (addr0 :: addrs)) !! k ≠ Some None)
    as Hnn0 by done.
  revert Hnn0. generalize (newSentinel primaryName (addr0 :: addrs)). intros sc0 Hnn0.
  destruct (dialSentinel_run (o_dial os) cf sc0) as [[conn err] ->].
  destruct err as [e|]; [done|]. destruct conn as [conn|]; [|done].
  destruct (ensureSentinelAddrs_run conn sc0) as (err & sc1 & -> & _ & _ & Hcl).
  destruct err as [e|]; [done|].
  destruct (ensureClients _ _ _ pf conn sc1) as [[r sc2] evs2] eqn:Hrun.
  destruct r as [[e|]|msg]; [done| |done].
  apply ensureClients_establishes_wf in Hrun; [|by rewrite Hcl|done].
  clear Hnn0.
  destruct pubsub as [e|].
  - destruct (Close_run (o_close os) sc2) as (err & sc3 & evs3 & -> & _). done.
  - unfold ret. by intros [= <- <-].
Qed.

Lemma reachable_wf sc : reachable sc → wf sc.
Proof.
  induction 1 as [???????Hnew|sc sc' _ IH Hstep].
  - by eapply NewSentinel_wf.
  - by eapply step_wf.
Qed.

Lemma closeAll_no_commit toClose sc r sc' evs :
  closeAll toClose sc = (r, sc', evs) → no_commit evs ∧ no_failure evs.
Proof.
  intros Hrun. destruct (closeAll_spec toClose sc) as (r' & evs' & Hrun' & Hev & _).
  rewrite Hrun in Hrun'. simplify_eq.
  split; intros ?? Hin; by destruct (Hev _ Hin) as (p & ? & _).
Qed.

(** C6. In every reachable state the address of the primary is a key of
    [clients]. Every commit of a pass of ensureClients publishes the
    [primAddr] and the [clients] that the pass leaves behind, together, and
    the published address is a key of the published map; a pass that
    succeeds commits exactly once, the address of the reported primary. *)
Theorem primAddr_in_clients :
  (∀ sc, reachable sc → is_Some (clients sc !! primAddr sc)) ∧
  (∀ o1 o2 o3 pf conn sc r sc' evs prim cl,
     ensureClients o1 o2 o3 pf conn sc = (r, sc', evs) →
     EvCommit prim cl ∈ evs →
     prim = primAddr sc' ∧ cl = clients sc' ∧ is_Some (cl !! prim)) ∧
  (∀ o1 o2 o3 pf conn sc sc' evs,
     ensureClients o1 o2 o3 pf conn sc = (Ret None, sc', evs) →
     (∃ primM secMM,
        masterSlaves conn = Ok (primM, secMM) ∧ primAddr sc' = mAddr primM) ∧
     ∃ evs1 evs2,
       evs = evs1 ++ EvCommit (primAddr sc') (clients sc') :: evs2 ∧
       no_commit evs1 ∧ no_commit evs2).
Proof.
  split; [|split].
  - intros sc Hr. by apply reachable_wf in Hr as [? _].
  - intros o1 o2 o3 pf conn sc r sc' evs prim cl Hrun Hin.
    apply ensureClients_run in Hrun as [(_ & _ & Hnc & _)|Hc];
      [by apply Hnc in Hin|].
    destruct Hc as (primM & secMM & sc1 & nc & evs1 & r2 & evs2 &
      _ & _ & _ & -> & -> & Hnc1 & _ & Hkeys & _ & _ & Hclose & _).
    apply closeAll_no_commit in Hclose as [Hnc2 _].
    apply elem_of_app in Hin as [Hin|Hin]; [by apply Hnc1 in Hin|].
    apply elem_of_cons in Hin as [[= -> ->]|Hin]; [|by apply Hnc2 in Hin].
    cbn. split; [done|]. split; [done|]. apply Hkeys. by left.
  - intros o1 o2 o3 pf conn sc sc' evs Hrun.
    apply ensureClients_run in Hrun as [([e ?] & _)|Hc]; [done|].
    destruct Hc as (primM & secMM & sc1 & nc & evs1 & r2 & evs2 &
      Hreply & _ & _ & -> & -> & Hnc1 & _ & Hkeys & _ & _ & Hclose & _).
    cbn. split; [eauto|].
    exists evs1, evs2. split; [done|]. split; [done|].
    by apply closeAll_no_commit in Hclose as [? _].
Qed.

(** C2, as amended. A pass in which a call of ClientFunc fails returns the
    error of that call, wrapped with the address; nothing is committed, so
    [primAddr] and [sentinelAddrs] are unchanged and no entry of [clients]
    is removed or replaced; but [clients] may have gained pools, installed
    by [client] at addresses that had none, before the failing call. *)
Theorem ensureClients_ClientFunc_failure (o1 o2 o3 : Order) (pf : ClientFunc)
    (conn : Conn) (sc sc' : Sentinel) (r : Outcome (option error))
    (evs : list Event) (a : string) (e : error) :
  ensureClients o1 o2 o3 pf conn sc = (r, sc', evs) →
  EvCreateFailed a e ∈ evs →
  r = Ret (Some (errCreatingClient a e)) ∧
  no_commit evs ∧
  primAddr sc' = primAddr sc ∧
  sentinelAddrs sc' = sentinelAddrs sc ∧
  (∀ k, clients sc' !! k = clients sc !! k ∨
        (client_at (clients sc) k = None ∧ ∃ p, clients sc' !! k = Some (Some p))).
Proof.
  intros Hrun Hfail.
  apply ensureClients_run in Hrun as [(_ & Hg & Hnc & Hev)|Hc].
  - split; [by apply Hev|]. split; [done|].
    destruct Hg as (_ & _ & _ & Hp & Hs & _ & Hk). done.
  - exfalso.
    destruct Hc as (primM & secMM & sc1 & nc & evs1 & r2 & evs2 &
      _ & _ & _ & _ & -> & _ & Hnf1 & _ & _ & _ & Hclose & _).
    apply closeAll_no_commit in Hclose as [_ Hnf2].
    apply elem_of_app in Hfail as [Hin|Hin]; [by apply Hnf1 in Hin|].
    apply elem_of_cons in Hin as [?|Hin]; [done|]. by apply Hnf2 in Hin.
Qed.

(** ** Clients *)

Lemma replicaSet_Secondaries prim entries rs :
  Secondaries (replicaSet prim entries rs) =
  Secondaries rs ++ (filter (λ kv, kv.1 ≠ prim) entries).*2.
Proof.
  revert rs. induction entries as [|[a c] rest IH]; intros rs; cbn [replicaSet].
  - by rewrite app_nil_r.
  - destruct (decide (a = prim)) as [->|Hne]; rewrite IH.
    + by rewrite filter_cons_False by (cbn; auto).
    + rewrite filter_cons_True by done. cbn. by rewrite <- app_assoc.
Qed.

Lemma replicaSet_Primary prim entries rs :
  NoDup entries.*1 →
  Primary (replicaSet prim entries rs) =
    match list_to_map (M := gmap string Client) entries !! prim with
    | Some c => c
    | None => Primary rs
    end.
Proof.
  revert rs. induction entries as [|[a c] rest IH]; intros rs Hnd; cbn [replicaSet].
  - by rewrite list_to_map_nil, lookup_empty.
  - cbn in Hnd. apply NoDup_cons in Hnd as [Ha Hnd]. rewrite list_to_map_cons.
    destruct (decide (a = prim)) as [->|Hne]; rewrite IH by done; cbn.
    + rewrite lookup_insert_eq.
      by rewrite (not_elem_of_list_to_map_1 _ _ Ha).
    + by rewrite lookup_insert_ne.
Qed.

Lemma range_others o (m : gmap string Client) prim :
  filter (λ kv, kv.1 ≠ prim) (range o m) ≡ₚ map_to_list (delete prim m).
Proof.
  apply NoDup_Permutation.
  - apply NoDup_filter. rewrite range_perm. apply NoDup_map_to_list.
  - apply NoDup_map_to_list.
  - intros [k v]. rewrite list_elem_of_filter, elem_of_range, elem_of_map_to_list.
    rewrite lookup_delete_Some. cbn. split; intros [? ?]; split; done.
Qed.

Lemma list_to_map_range o (m : gmap string Client) :
  list_to_map (range o m) = m.
Proof.
  apply map_eq. intros k. apply option_eq. intros v.
  rewrite <- elem_of_list_to_map by apply NoDup_fst_range.
  apply elem_of_range.
Qed.

(** C7. A call of Clients that returns no error returns a map with the
    single key [primAddr], whose ReplicaSet has the client of the primary
    as Primary and the clients of all other keys as Secondaries. *)
Theorem Clients_single_entry (o : Order) (sc sc' : Sentinel)
    (m : gmap string ReplicaSet) (evs : list Event) :
  Clients o sc = (Ret (m, None), sc', evs) →
  ∃ rs,
    m = {[ primAddr sc := rs ]} ∧
    Primary rs = client_at (clients sc) (primAddr sc) ∧
    Secondaries rs ≡ₚ (map_to_list (delete (primAddr sc) (clients sc))).*2.
Proof.
  unfold Clients, WithRLock, bind, get, ret.
  destruct (closed sc); [done|]. intros [= <- <- <-].
  eexists. split; [done|]. split.
  - rewrite replicaSet_Primary by apply NoDup_fst_range.
    rewrite list_to_map_range. unfold client_at.
    by destruct (clients sc !! primAddr sc).
  - rewrite replicaSet_Secondaries. cbn. by rewrite range_others.
Qed.

(** ** DoSecondary *)

(** C8. On a Sentinel that has been constructed and is not closed,
    DoSecondary performs the action on a client of [clients]: one whose
    address is not [primAddr] when there is such an entry, the one of
    [primAddr] when there is none. *)
Theorem DoSecondary_target (o : Order) (pf : ClientFunc) (a : Action)
    (sc : Sentinel) :
  reachable sc →
  closed sc = false →
  ∃ k p,
    clients sc !! k = Some (Some p) ∧
    DoSecondary o pf a sc = (Ret (a p), sc, [EvDo p]) ∧
    ((∃ k', k' ≠ primAddr sc ∧ is_Some (clients sc !! k')) → k ≠ primAddr sc) ∧
    ((∀ k', is_Some (clients sc !! k') → k' = primAddr sc) → k = primAddr sc).
Proof.
  intros Hr%reachable_wf Hc.
  destruct (client_secondary o pf sc Hr Hc) as (k & p & Hk & Hrun & Hsec).
  exists k, p. split; [done|]. split; [|split; [done|]].
  - unfold DoSecondary, bind. rewrite Hrun. done.
  - intros Hall. apply Hall. by rewrite Hk.
Qed.

(** ** The example runs *)

Lemma boot_run :
  Ex.boot =
    (Ret None, Ex.sc1,
     [EvCreate Ex.pool0; EvCommit Ex.P {[ Ex.P := Some Ex.pool0 ]}]).
Proof. vm_compute. reflexivity. Qed.

Lemma pass2_run :
  Ex.pass2 =
    (Ret None, Ex.sc2,
     [EvCommit Ex.P {[ Ex.P := Some Ex.pool0; Ex.S := Some Ex.pool0 ]}]).
Proof. vm_compute. reflexivity. Qed.

Lemma pass3_run :
  Ex.pass3 =
    (Ret None, Ex.sc1,
     [EvCommit Ex.P {[ Ex.P := Some Ex.pool0 ]}; EvClose Ex.pool0]).
Proof. vm_compute. reflexivity. Qed.

Lemma bootPS_run :
  Ex.bootPS =
    (Ret None, Ex.scPS,
     [EvCreate (mkPool 0 Ex.S); EvCreate (mkPool 1 Ex.P);
      EvCommit Ex.P {[ Ex.P := Some (mkPool 1 Ex.P); Ex.S := Some (mkPool 0 Ex.S) ]}]).
Proof. vm_compute. reflexivity. Qed.

Lemma passFail_run :
  Ex.passFail =
    (Ret (Some (errCreatingClient Ex.S Ex.refused)), Ex.scFail,
     [EvCreate Ex.pool0; EvCreateFailed Ex.S Ex.refused]).
Proof. vm_compute. reflexivity. Qed.

Lemma reachable_sc1 : reachable Ex.sc1.
Proof. eapply reachable_new. apply boot_run. Qed.

Lemma reachable_sc2 : reachable Ex.sc2.
Proof.
  eapply reachable_step; [apply reachable_sc1|].
  replace Ex.sc2 with (state_of Ex.pass2) by (by rewrite pass2_run).
  apply step_ensureClients.
Qed.

Lemma reachable_scPS : reachable Ex.scPS.
Proof. eapply reachable_new. apply bootPS_run. Qed.

(** ** What the commit closes *)

Lemma closeAll_ret toClose sc u sc' evs :
  closeAll toClose sc = (Ret u, sc', evs) →
  ∃ ps, toClose = Some <$> ps ∧ evs = EvClose <$> ps.
Proof.
  revert evs. induction toClose as [|[p|] rest IH]; intros evs; cbn [closeAll].
  - intros [= <- <- <-]. by exists [].
  - unfold bind, emit.
    destruct (closeAll rest sc) as [[r1 sc1] evs1] eqn:Hrest.
    destruct r1 as [u1|msg]; [|done]. intros [= <- <- <-].
    destruct (IH _ eq_refl) as (ps & -> & ->). by exists (p :: ps).
  - done.
Qed.

Lemma range_filter o (m : gmap string Client) (P : string * Client → Prop)
    `{!∀ kv, Decision (P kv)} :
  filter P (range o m) ≡ₚ map_to_list (filter P m).
Proof.
  apply NoDup_Permutation.
  - apply NoDup_filter. rewrite range_perm. apply NoDup_map_to_list.
  - apply NoDup_map_to_list.
  - intros [k v]. rewrite list_elem_of_filter, elem_of_range, elem_of_map_to_list.
    rewrite map_lookup_filter_Some. cbn. split; intros [? ?]; split; done.
Qed.

(** Entry by entry the commit does what its comment says: after a pass that
    succeeds, the events that follow the commit are one Close for every
    entry that [clients] held just before the commit at an address that is
    not a key of the new map, and every entry at a shared address is moved
    over. Nothing here prevents two addresses from holding the same pool. *)
Lemma ensureClients_commit_per_entry o1 o2 o3 pf conn sc sc' evs :
  ensureClients o1 o2 o3 pf conn sc = (Ret None, sc', evs) →
  ∃ sc1 evs1 ps,
    grows sc sc1 ∧
    evs = evs1 ++ EvCommit (primAddr sc') (clients sc') :: (EvClose <$> ps) ∧
    no_commit evs1 ∧
    Some <$> ps ≡ₚ
      (map_to_list (filter (λ kv, clients sc' !! kv.1 = None) (clients sc1))).*2 ∧
    (∀ k v, clients sc1 !! k = Some v → is_Some (clients sc' !! k) →
            clients sc' !! k = Some v).
Proof.
  intros Hrun.
  apply ensureClients_run in Hrun as [([e ?] & _)|Hc]; [done|].
  destruct Hc as (primM & secMM & sc1 & nc & evs1 & r2 & evs2 &
    _ & _ & Hg & -> & -> & Hnc1 & _ & _ & Hold & _ & Hclose & Hr).
  destruct r2 as [u|msg]; [|done].
  apply closeAll_ret in Hclose as (ps & Hps & ->).
  exists sc1, evs1, ps. cbn. split; [done|]. split; [done|]. split; [done|].
  split; [|done].
  rewrite <- Hps. by rewrite range_filter.
Qed.

(** On every constructed Sentinel that is not closed, [client] answers a
    request for any non-empty address with the pool of the primary. *)
Lemma client_returns_primary o pf addr sc :
  reachable sc → closed sc = false → addr ≠ "" →
  ∃ p, clients sc !! primAddr sc = Some (Some p) ∧
       client o pf addr sc = (Ret (Some p, None), sc, []).
Proof.
  intros [[c Hprim] Hnn]%reachable_wf Hc Ha.
  destruct c as [p|]; [|by apply Hnn in Hprim].
  exists p. split; [done|].
  rewrite client_nonempty_addr, Hc by done.
  unfold client_at. by rewrite Hprim.
Qed.

(** On a constructed Sentinel that is not closed, a pass never calls
    ClientFunc: every address, known or new, is given the pool of the
    primary. *)
Lemma ensureAll_returns_primary o pf addrs nc sc p :
  closed sc = false →
  clients sc !! primAddr sc = Some (Some p) →
  (∀ a, a ∈ addrs → a ≠ "") →
  ensureAll o pf addrs nc sc =
    (Ret (foldl (λ m a, <[a := Some p]> m) nc addrs, None), sc, []).
Proof.
  intros Hc Hp. revert nc. induction addrs as [|addr rest IH]; intros nc Hne; [done|].
  cbn [ensureAll foldl]. unfold bind.
  rewrite client_nonempty_addr, Hc by (apply Hne; left).
  unfold client_at. rewrite Hp. cbn.
  rewrite IH by (intros; apply Hne; by right). done.
Qed.

Lemma ensureClients_never_creates o1 o2 o3 pf conn sc r sc' evs :
  reachable sc → closed sc = false →
  ensureClients o1 o2 o3 pf conn sc = (r, sc', evs) →
  ∀ ev, ev ∈ evs →
    (∃ prim cl, ev = EvCommit prim cl) ∨ (∃ q, ev = EvClose q).
Proof.
  intros [[c Hprim] Hnn]%reachable_wf Hc.
  destruct c as [p|]; [|by apply Hnn in Hprim].
  unfold ensureClients.
  destruct (masterSlaves conn) as [[primM secMM]|e0].
  2:{ intros [= <- <- <-] ev Hin. by apply elem_of_nil in Hin. }
  destruct (sentinelMtoAddr primM _) as [newPrim [e0|]] eqn:Hm.
  { intros [= <- <- <-] ev Hin. by apply elem_of_nil in Hin. }
  apply sentinelMtoAddr_ok in Hm as [_ ->].
  destruct (secondaryAddrs secMM _) as [nc0 [e0|]] eqn:Hsec.
  { intros [= <- <- <-] ev Hin. by apply elem_of_nil in Hin. }
  apply secondaryAddrs_keys in Hsec as (_ & Hne & _).
  assert (∀ a, a ∈ (range o1 nc0).*1 → a ≠ "") as Hne'.
  { intros a Ha%elem_of_range_keys. destruct (Hne a Ha) as [Hs|?]; [|done].
    apply lookup_singleton_is_Some in Hs as <-. apply JoinHostPort_nonempty. }
  unfold bind. rewrite (ensureAll_returns_primary _ _ _ _ _ p) by done.
  rewrite commitClients_unlocked by done.
  destruct (closeAll_spec
    (carryOver (range o3 (clients sc))
       (foldl (λ m a, <[a:=Some p]> m) nc0 (range o1 nc0).*1) []).2
    (set_topology (JoinHostPort (field primM "ip") (field primM "port"))
       (carryOver (range o3 (clients sc))
          (foldl (λ m a, <[a:=Some p]> m) nc0 (range o1 nc0).*1) []).1 sc))
    as (r2 & evs2 & Hclose & Hev & _).
  rewrite Hclose. intros Hrun ev Hin.
  assert (ev ∈ EvCommit (JoinHostPort (field primM "ip") (field primM "port"))
            (carryOver (range o3 (clients sc))
               (foldl (λ m a, <[a:=Some p]> m) nc0 (range o1 nc0).*1) []).1
          :: evs2) as Hin'.
  { destruct r2; cbn in Hrun; simplify_eq; by rewrite ?app_nil_r in Hin. }
  apply elem_of_cons in Hin' as [->|Hin']; [eauto|].
  right. destruct (Hev _ Hin') as (q & -> & _). eauto.
Qed.

(** ** Where the code departs from the specification *)

(** C1. The read-locked section of [client] does not look up
    [clients[addr]]: on the Sentinel constructed for the primary [P] and the
    replica [S], which holds a pool for each, [client] called for [S] returns
    the pool of [P]; and on the Sentinel constructed for [P] alone, [client]
    called for [S] neither calls ClientFunc nor installs anything, and again
    returns the pool of [P]. *)
Theorem client_ignores_addr :
  reachable Ex.scPS ∧
  clients Ex.scPS !! Ex.S = Some (Some (mkPool 0 Ex.S)) ∧
  client [] Ex.pfOk Ex.S Ex.scPS = (Ret (Some (mkPool 1 Ex.P), None), Ex.scPS, []) ∧
  reachable Ex.sc1 ∧
  clients Ex.sc1 !! Ex.S = None ∧
  client [] Ex.pfOk Ex.S Ex.sc1 = (Ret (Some Ex.pool0, None), Ex.sc1, []).
Proof.
  split; [apply reachable_scPS|]. split; [by vm_compute|].
  split; [by vm_compute|]. split; [apply reachable_sc1|].
  split; by vm_compute.
Qed.

(** C3. After the replica [S] has appeared, [clients] holds the pool of the
    primary [P] under both addresses; when [S] disappears again, the pass
    carries the entry of [P] forward and, after the commit, closes the entry
    of [S], which is the very pool the new map holds for the primary. *)
Theorem ensureClients_closes_carried_pool :
  reachable Ex.sc2 ∧
  clients Ex.sc2 = {[ Ex.P := Some Ex.pool0; Ex.S := Some Ex.pool0 ]} ∧
  ensureClients [] [] [] Ex.pfOk Ex.connP Ex.sc2 =
    (Ret None, Ex.sc1,
     [EvCommit Ex.P {[ Ex.P := Some Ex.pool0 ]}; EvClose Ex.pool0]) ∧
  clients Ex.sc1 !! primAddr Ex.sc1 = Some (Some Ex.pool0).
Proof.
  split; [apply reachable_sc2|]. split; [done|].
  split; [apply pass3_run|]. by vm_compute.
Qed.

(** C2, as stated, fails: in the pass that NewSentinel runs, when it
    visits [P] before [S] and ClientFunc fails for [S], the pass returns the
    error, and the pool created for [P] stays in [clients], which was empty
    before. *)
Lemma ensureClients_failure_changes_clients :
  state_of (ensureSentinelAddrs Ex.connPS
              (newSentinel "mymaster" [Ex.sentinel1; Ex.sentinel2])) = Ex.sc0 ∧
  (range [1] ({[ Ex.P := None; Ex.S := None ]} : gmap string Client)).*1
    = [Ex.P; Ex.S] ∧
  ensureClients [1] [] [] Ex.pfNoS Ex.connPS Ex.sc0 =
    (Ret (Some (errCreatingClient Ex.S Ex.refused)), Ex.scFail,
     [EvCreate Ex.pool0; EvCreateFailed Ex.S Ex.refused]) ∧
  clients Ex.sc0 = ∅ ∧
  clients Ex.scFail = {[ Ex.P := Some Ex.pool0 ]} ∧
  clients Ex.scFail ≠ clients Ex.sc0.
Proof.
  split; [by vm_compute|].
  split; [by vm_compute|]. split; [apply passFail_run|].
  split; [done|]. split; [by vm_compute|].
  intros Heq. apply (f_equal (λ m, m !! Ex.P)) in Heq. by vm_compute in Heq.
Qed.

(** ** The theorems at concrete inputs *)

Lemma ensureClients_ClientFunc_failure_witness :
  no_commit [EvCreate Ex.pool0; EvCreateFailed Ex.S Ex.refused] ∧
  primAddr Ex.scFail = primAddr Ex.sc0 ∧
  sentinelAddrs Ex.scFail = sentinelAddrs Ex.sc0.
Proof.
  destruct (ensureClients_ClientFunc_failure [1] [] [] Ex.pfNoS Ex.connPS
              Ex.sc0 Ex.scFail
              (Ret (Some (errCreatingClient Ex.S Ex.refused)))
              [EvCreate Ex.pool0; EvCreateFailed Ex.S Ex.refused]
              Ex.S Ex.refused) as (_ & H1 & H2 & H3 & _).
  - vm_compute. reflexivity.
  - right. left.
  - exact (conj H1 (conj H2 H3)).
Defined.

Lemma dialSentinel_known_unreachable_witness :
  dialSentinel [] Ex.cfDown Ex.scDown =
    (Ret (None, Some Ex.refused), Ex.scDown, []) ∧
  dialSentinel [] Ex.cfBoot Ex.scDown =
    (Ret (Some Ex.connP, None), Ex.scDown, []).
Proof.
  split.
  - rewrite (proj1 (dialSentinel_known_unreachable [] Ex.cfDown Ex.scDown
                      eq_refl (λ a _, ex_intro _ Ex.refused eq_refl))
                   (λ a _, ex_intro _ Ex.refused eq_refl)).
    vm_compute. reflexivity.
  - apply (proj2 (dialSentinel_known_unreachable [] Ex.cfBoot Ex.scDown
                    eq_refl
                    (λ a Ha, ex_intro _ Ex.refused
                       (eq_ind Ex.sentinel2
                          (λ b, Ex.cfBoot b = Err Ex.refused) eq_refl a
                          (proj1 (lookup_singleton_is_Some _ _ _) Ha))))
                 [] Ex.sentinel1 [] Ex.connP eq_refl).
    + intros b Hb. by apply elem_of_nil in Hb.
    + vm_compute. reflexivity.
Defined.

Lemma ensureClients_malformed_witness :
  ∃ cmd m,
    malformed m ∧ (m = ∅ ∨ m ∈ []) ∧
    ensureClients [] [] [] Ex.pfOk Ex.connBad Ex.sc1 =
      (Ret (Some (errMalformed cmd m)), Ex.sc1, []).
Proof.
  apply (ensureClients_malformed [] [] [] Ex.pfOk Ex.connBad Ex.sc1 ∅ [] eq_refl).
  left. left. vm_compute. reflexivity.
Defined.

Lemma primAddr_in_clients_witness :
  is_Some (clients Ex.sc1 !! primAddr Ex.sc1) ∧
  (Ex.P = primAddr Ex.sc2 ∧
   {[ Ex.P := Some Ex.pool0; Ex.S := Some Ex.pool0 ]} = clients Ex.sc2 ∧
   is_Some (({[ Ex.P := Some Ex.pool0; Ex.S := Some Ex.pool0 ]}
               : gmap string Client) !! Ex.P)).
Proof.
  split.
  - apply (proj1 primAddr_in_clients).
    apply (reachable_new Ex.orders (Ex.cf Ex.connP) Ex.pfOk None "mymaster"
             [Ex.sentinel1; Ex.sentinel2] Ex.sc1
             [EvCreate Ex.pool0; EvCommit Ex.P {[ Ex.P := Some Ex.pool0 ]}]).
    vm_compute. reflexivity.
  - apply (proj1 (proj2 primAddr_in_clients) [] [] [] Ex.pfOk Ex.connPS Ex.sc1
             (Ret None) Ex.sc2
             [EvCommit Ex.P {[ Ex.P := Some Ex.pool0; Ex.S := Some Ex.pool0 ]}]
             Ex.P {[ Ex.P := Some Ex.pool0; Ex.S := Some Ex.pool0 ]}).
    + vm_compute. reflexivity.
    + left.
Defined.

Lemma Clients_single_entry_witness :
  ∃ rs,
    ({[ Ex.P := mkReplicaSet (Some Ex.pool0) [Some Ex.pool0] ]}
       : gmap string ReplicaSet) = {[ primAddr Ex.sc2 := rs ]} ∧
    Primary rs = client_at (clients Ex.sc2) (primAddr Ex.sc2) ∧
    Secondaries rs ≡ₚ (map_to_list (delete (primAddr Ex.sc2) (clients Ex.sc2))).*2.
Proof.
  apply (Clients_single_entry [] Ex.sc2 Ex.sc2 _ []).
  vm_compute. reflexivity.
Defined.

Lemma DoSecondary_target_witness :
  ∃ k p,
    clients Ex.scPS !! k = Some (Some p) ∧
    DoSecondary [] Ex.pfOk Ex.act Ex.scPS = (Ret (Ex.act p), Ex.scPS, [EvDo p]) ∧
    ((∃ k', k' ≠ primAddr Ex.scPS ∧ is_Some (clients Ex.scPS !! k')) →
     k ≠ primAddr Ex.scPS) ∧
    ((∀ k', is_Some (clients Ex.scPS !! k') → k' = primAddr Ex.scPS) →
     k = primAddr Ex.scPS).
Proof.
  apply (DoSecondary_target [] Ex.pfOk Ex.act Ex.scPS); [|reflexivity].
  apply (reachable_new Ex.orders (Ex.cf Ex.connPS) Ex.pfOk None "mymaster"
           [Ex.sentinel1; Ex.sentinel2] Ex.scPS
           [EvCreate (mkPool 0 Ex.S); EvCreate (mkPool 1 Ex.P);
            EvCommit Ex.P {[ Ex.P := Some (mkPool 1 Ex.P);
                              Ex.S := Some (mkPool 0 Ex.S) ]}]).
  vm_compute. reflexivity.
Defined.

Lemma dialSentinel_nil_nil_witness :
  dialSentinel [] Ex.cfDown Ex.scNone = (Ret (None, None), Ex.scNone, []).
Proof.
  apply (dialSentinel_nil_nil [] Ex.cfDown Ex.scNone eq_refl eq_refl).
  intros a _. exists Ex.refused. reflexivity.
Defined.

Lemma ensureSentinelAddrs_no_validation_witness :
  ensureSentinelAddrs Ex.connBad Ex.sc1 =
    (Ret None,
     set_sentinelAddrs
       (peerAddrs Ex.sentinel2 [Ex.reply "10.0.0.3" "26379"; ∅]) Ex.sc1, []) ∧
  is_Some (peerAddrs Ex.sentinel2 [Ex.reply "10.0.0.3" "26379"; ∅] !! ":").
Proof.
  destruct (ensureSentinelAddrs_no_validation Ex.connBad Ex.sc1
              [Ex.reply "10.0.0.3" "26379"; ∅] eq_refl eq_refl)
    as (Hrun & _ & Hdegenerate).
  split; [exact Hrun|].
  apply (Hdegenerate ∅); [right; left|reflexivity|reflexivity].
Defined.

(** * Further properties of the Sentinel *)

(** ** Do *)

Lemma Do_unlocked a sc p :
  closed sc = false → clients sc !! primAddr sc = Some (Some p) →
  Do a sc = (Ret (a p), sc, [EvDo p]).
Proof.
  intros Hc Hp. unfold Do, WithRLock, clientDo, bind, get, ret, emit.
  rewrite Hc. unfold client_at. by rewrite Hp.
Qed.

Lemma Do_on_primary_lemma a sc :
  wf sc → closed sc = false →
  ∃ p, clients sc !! primAddr sc = Some (Some p) ∧
       Do a sc = (Ret (a p), sc, [EvDo p]).
Proof.
  intros [[c Hprim] Hnn] Hc.
  destruct c as [p|]; [|by apply Hnn in Hprim].
  exists p. split; [done|]. by apply Do_unlocked.
Qed.

(** X1. On a constructed Sentinel that is not closed, Do performs the
    action on the pool held for [primAddr], returns the action's error and
    leaves the Sentinel as it is; the nil dereference that [Do] does not
    guard against cannot happen. *)
Theorem Do_on_primary (a : Action) (sc : Sentinel) :
  reachable sc → closed sc = false →
  ∃ p, clients sc !! primAddr sc = Some (Some p) ∧
       Do a sc = (Ret (a p), sc, [EvDo p]).
Proof. intros Hr%reachable_wf Hc. by apply Do_on_primary_lemma. Qed.

(** ** Close *)

Lemma closeClients_events entries sc :
  closeClients entries sc = (Ret tt, sc, EvClose <$> omap snd entries).
Proof.
  induction entries as [|[k [p|]] rest IH]; cbn [closeClients]; [done| |done].
  unfold bind, emit. by rewrite IH.
Qed.

Lemma Close_unlocked o sc :
  closed sc = false →
  Close o sc =
    (Ret None, set_closed sc, EvClose <$> omap snd (range o (clients sc))).
Proof.
  intros Hc. unfold Close, procClose, bind, get, ret, modify. rewrite Hc.
  rewrite closeClients_events. cbn. by rewrite app_nil_r.
Qed.

Lemma Close_closed o sc :
  closed sc = true → Close o sc = (Ret (Some errClosed), sc, []).
Proof.
  intros Hc. unfold Close, procClose, bind, get, ret. by rewrite Hc.
Qed.

(** X2. The first Close returns no error, sets the latch, keeps
    [primAddr], [clients] and [sentinelAddrs], and calls Close once for
    every entry of [clients] that is not nil, skipping the nil ones: the
    pools closed are, up to order, the non-nil values of the map. *)
Theorem Close_closes_every_entry (o : Order) (sc : Sentinel) :
  closed sc = false →
  ∃ ps,
    Close o sc = (Ret None, set_closed sc, EvClose <$> ps) ∧
    ps ≡ₚ omap snd (map_to_list (clients sc)).
Proof.
  intros Hc. exists (omap snd (range o (clients sc))).
  split; [by apply Close_unlocked|]. by rewrite range_perm.
Qed.

(** X3. Whatever the first Close did, afterwards the Sentinel is closed for
    good: a second Close, Do, DoSecondary, Clients, SentinelAddrs,
    dialSentinel and ensureSentinelAddrs return the closed error, and none
    of them changes the Sentinel, closes or creates a pool, or performs an
    action. *)
Theorem closed_after_Close (o o' : Order) (cf : ConnFunc) (pf : ClientFunc)
    (a : Action) (conn : Conn) (mm : list smap) (sc : Sentinel) :
  sentinels conn = Ok mm →
  let sc' := state_of (Close o sc) in
  Close o' sc' = (Ret (Some errClosed), sc', []) ∧
  Do a sc' = (Ret (Some errClosed), sc', []) ∧
  DoSecondary o' pf a sc' = (Ret (Some errClosed), sc', []) ∧
  Clients o' sc' = (Ret (∅, Some errClosed), sc', []) ∧
  SentinelAddrs o' sc' = (Ret ([], Some errClosed), sc', []) ∧
  dialSentinel o' cf sc' = (Ret (None, Some errClosed), sc', []) ∧
  ensureSentinelAddrs conn sc' = (Ret (Some errClosed), sc', []).
Proof.
  intros Hreply sc'.
  assert (closed sc' = true) as Hc.
  { subst sc'. destruct (closed sc) eqn:Hc.
    - by rewrite Close_closed.
    - by rewrite Close_unlocked. }
  clearbody sc'.
  split; [by apply Close_closed|].
  unfold Do, DoSecondary, Clients, SentinelAddrs, dialSentinel,
    ensureSentinelAddrs, client, client_rlock, WithRLock, WithLock,
    bind, get, ret.
  by rewrite Hreply, Hc.
Qed.

(** ** The known Sentinels *)

Lemma SentinelAddrs_unlocked o sc :
  closed sc = false →
  SentinelAddrs o sc = (Ret ((range o (sentinelAddrs sc)).*1, None), sc, []).
Proof.
  intros Hc. unfold SentinelAddrs, WithRLock, bind, get, ret. by rewrite Hc.
Qed.

(** X4. After ensureSentinelAddrs has succeeded on a connection,
    SentinelAddrs returns, each exactly once, the address of that connection
    and the joined ip and port of every reported peer, and nothing else. *)
Theorem SentinelAddrs_after_ensure (o : Order) (conn : Conn) (mm : list smap)
    (sc sc' : Sentinel) :
  sentinels conn = Ok mm →
  ensureSentinelAddrs conn sc = (Ret None, sc', []) →
  ∃ l,
    SentinelAddrs o sc' = (Ret (l, None), sc', []) ∧
    NoDup l ∧
    ∀ k, k ∈ l ↔ k = Addr conn ∨ ∃ m, m ∈ mm ∧ k = mAddr m.
Proof.
  intros Hreply Hrun.
  destruct (closed sc) eqn:Hc.
  { unfold ensureSentinelAddrs, WithLock, bind, get, ret in Hrun.
    by rewrite Hreply, Hc in Hrun. }
  destruct (ensureSentinelAddrs_no_validation_lemma conn sc mm Hreply Hc)
    as (Hrun' & Hkeys).
  rewrite Hrun' in Hrun. injection Hrun as <-.
  eexists. split; [by apply SentinelAddrs_unlocked|].
  split; [apply NoDup_fst_range|].
  intros k. rewrite elem_of_range_keys. cbn. apply Hkeys.
Qed.

Lemma peerAddrs_self self mm : peerAddrs self mm !! self = Some true.
Proof. apply peerAddrs_lookup. by left. Qed.

Lemma known_peerAddrs self mm :
  known_ok (peerAddrs self mm).
Proof.
  split.
  - intros Hempty. pose proof (peerAddrs_self self mm) as Hs.
    by rewrite Hempty, lookup_empty in Hs.
  - intros k v. apply peerAddrs_true.
Qed.

Lemma ensureSentinelAddrs_known conn sc :
  known_ok (sentinelAddrs sc) →
  known_ok (sentinelAddrs (state_of (ensureSentinelAddrs conn sc))).
Proof.
  intros Hk. unfold ensureSentinelAddrs.
  destruct (sentinels conn) as [mm|e]; [|done].
  unfold WithLock, bind, get, ret, modify.
  destruct (closed sc); [done|]. apply known_peerAddrs.
Qed.

Lemma ensureClients_sentinelAddrs o1 o2 o3 pf conn sc :
  sentinelAddrs (state_of (ensureClients o1 o2 o3 pf conn sc)) = sentinelAddrs sc.
Proof.
  destruct (ensureClients o1 o2 o3 pf conn sc) as [[r sc'] evs] eqn:Hrun.
  unfold state_of; cbn.
  apply ensureClients_run in Hrun as [(_ & Hg & _)|Hc].
  - apply Hg.
  - destruct Hc as (primM & secMM & sc1 & nc & evs1 & r2 & evs2 &
      _ & _ & Hg & -> & _). cbn. apply Hg.
Qed.

Lemma step_known sc sc' :
  wf sc → step sc sc' → known_ok (sentinelAddrs sc) → known_ok (sentinelAddrs sc').
Proof.
  intros Hwf Hstep Hk. destruct Hstep.
  - destruct (dialSentinel_run o cf sc) as [res ->]. done.
  - by apply ensureSentinelAddrs_known.
  - by rewrite ensureClients_sentinelAddrs.
  - unfold Clients, WithRLock, bind, get, ret. by destruct (closed sc).
  - unfold SentinelAddrs, WithRLock, bind, get, ret. by destruct (closed sc).
  - unfold Do, WithRLock, clientDo, bind, get, ret, emit, panic.
    destruct (closed sc); [done|].
    by destruct (client_at (clients sc) (primAddr sc)).
  - by rewrite DoSecondary_state.
  - unfold Close, procClose, bind, get, ret, modify.
    destruct (closed sc); [done|].
    destruct (closeClients_run (range o (clients (set_closed sc))) (set_closed sc))
      as [evs ->]. done.
Qed.

Lemma NewSentinel_known os cf pf pubsub primaryName addrs sc evs :
  NewSentinel os cf pf pubsub primaryName addrs = (Ret None, sc, evs) →
  known_ok (sentinelAddrs sc).
Proof.
  unfold NewSentinel, bootstrap, bind, get.
  destruct addrs as [|addr0 addrs]; [done|].
  change (initAddrs (newSentinel primaryName (addr0 :: addrs))) with (addr0 :: addrs).
  assert (closed (newSentinel primaryName (addr0 :: addrs)) = false) as Hc0 by done.
  revert Hc0. generalize (newSentinel primaryName (addr0 :: addrs)). intros sc0 Hc0.
  destruct (dialSentinel_run (o_dial os) cf sc0) as [[conn err] ->].
  destruct err as [e|]; [done|]. destruct conn as [conn|]; [|done].
  destruct (ensureSentinelAddrs conn sc0) as [[r1 sc1] evs1] eqn:Hens.
  assert (r1 = Ret None → known_ok (sentinelAddrs sc1)) as Hk1.
  { intros ->. revert Hens. unfold ensureSentinelAddrs.
    destruct (sentinels conn) as [mm|e]; [|done].
    unfold WithLock, bind, get, ret, modify. rewrite Hc0.
    intros [= <- <-]. apply known_peerAddrs. }
  destruct r1 as [[e|]|msg]; [done| |done].
  specialize (Hk1 eq_refl).
  pose proof (ensureClients_sentinelAddrs (o_new os) (o_cl os) (o_old os) pf conn sc1)
    as Hsame.
  destruct (ensureClients _ _ _ pf conn sc1) as [[r sc2] evs2].
  unfold state_of in Hsame; cbn in Hsame.
  destruct r as [[e|]|msg]; [done| |done].
  destruct pubsub as [e|].
  - destruct (Close_run (o_close os) sc2) as (err & sc3 & evs3 & -> & _). done.
  - unfold ret. intros [= <- <-]. by rewrite Hsame.
Qed.

Lemma reachable_known sc : reachable sc → known_ok (sentinelAddrs sc).
Proof.
  induction 1 as [???????Hnew|sc sc' Hr IH Hstep].
  - by eapply NewSentinel_known.
  - eapply step_known; [by apply reachable_wf|done..].
Qed.

(** X5. On every constructed Sentinel the set of known Sentinel addresses
    is not empty, and every entry of the map holds true. *)
Theorem known_sentinels_never_empty (sc : Sentinel) :
  reachable sc →
  sentinelAddrs sc ≠ ∅ ∧ ∀ k v, sentinelAddrs sc !! k = Some v → v = true.
Proof. apply reachable_known. Qed.

(** ** More on dialSentinel *)

Lemma dialKnown_first_ok cf l1 a l2 c conn err :
  (∀ b, b ∈ l1 → ∃ e, cf b = Err e) → cf a = Ok c →
  dialKnown cf (l1 ++ a :: l2) conn err = (true, Some c, None).
Proof.
  revert conn err. induction l1 as [|b l1 IH]; intros conn err Hall Ha;
    cbn [dialKnown app].
  - by rewrite Ha.
  - destruct (Hall b) as [e He]; [left|].
    rewrite He. apply IH; [|done]. intros; apply Hall; by right.
Qed.

Lemma dialKnown_result cf addrs conn0 err0 :
  (∃ c, dialKnown cf addrs conn0 err0 = (true, Some c, None)) ∨
  (∃ conn err, dialKnown cf addrs conn0 err0 = (false, conn, err) ∧
     (addrs = [] ∧ conn = conn0 ∧ err = err0 ∨
      addrs ≠ [] ∧ conn = None ∧ ∃ e, err = Some e)).
Proof.
  revert conn0 err0. induction addrs as [|a addrs IH]; intros conn0 err0;
    cbn [dialKnown].
  - right. eauto 10.
  - destruct (cf a) as [c|e]; [eauto|].
    destruct (IH None (Some e)) as [?|(conn & err & -> & Hcase)]; [by left|].
    right. exists conn, err. split; [done|]. right. split; [done|].
    destruct Hcase as [(_ & -> & ->)|(_ & -> & ?)]; eauto.
Qed.

Lemma dialInit_result cf addrs :
  (∃ c, dialInit cf addrs None = (true, Some c)) ∨
  dialInit cf addrs None = (false, None).
Proof.
  induction addrs as [|a addrs IH]; cbn [dialInit]; [by right|].
  destruct (cf a) as [c|e]; eauto.
Qed.

Lemma range_nonempty {V} o (m : gmap string V) : m ≠ ∅ → (range o m).*1 ≠ [].
Proof.
  intros Hne Hnil. apply Hne. apply map_to_list_empty_iff.
  apply fmap_nil_inv in Hnil. apply Permutation_nil_r.
  by rewrite <- range_perm, Hnil.
Qed.

Lemma dialSentinel_conn_xor_err o cf sc :
  sentinelAddrs sc ≠ ∅ →
  (∃ c, dialSentinel o cf sc = (Ret (Some c, None), sc, [])) ∨
  (∃ e, dialSentinel o cf sc = (Ret (None, Some e), sc, [])).
Proof.
  intros Hne. destruct (closed sc) eqn:Hc.
  { right. exists errClosed.
    unfold dialSentinel, WithRLock, bind, get, ret. by rewrite Hc. }
  rewrite dialSentinel_unlocked by done.
  destruct (dialKnown_result cf (range o (sentinelAddrs sc)).*1 None None)
    as [[c ->]|(conn & err & -> & Hcase)]; [eauto|].
  destruct Hcase as [(Hnil & _)|(_ & -> & e & ->)].
  { by apply range_nonempty in Hnil. }
  destruct (dialInit_result cf (initAddrs sc)) as [[c ->]| ->]; eauto.
Qed.

(** X6. On a constructed Sentinel dialSentinel never returns a nil
    connection together with a nil error: it returns either a connection
    and no error, or no connection and an error. *)
Theorem dialSentinel_conn_or_error (o : Order) (cf : ConnFunc) (sc : Sentinel) :
  reachable sc →
  (∃ c, dialSentinel o cf sc = (Ret (Some c, None), sc, [])) ∨
  (∃ e, dialSentinel o cf sc = (Ret (None, Some e), sc, [])).
Proof.
  intros Hr. apply dialSentinel_conn_xor_err. by apply reachable_known in Hr as [? _].
Qed.

(** X7. When the dial of some known address succeeds, dialSentinel returns
    the connection of the first known address, in the order of the
    iteration, whose dial succeeds; the bootstrap addresses play no part. *)
Theorem dialSentinel_first_known (o : Order) (cf : ConnFunc) (sc : Sentinel)
    (l1 l2 : list string) (a : string) (c : Conn) :
  closed sc = false →
  (range o (sentinelAddrs sc)).*1 = l1 ++ a :: l2 →
  (∀ b, b ∈ l1 → ∃ e, cf b = Err e) →
  cf a = Ok c →
  dialSentinel o cf sc = (Ret (Some c, None), sc, []).
Proof.
  intros Hc Horder Hl1 Ha. rewrite dialSentinel_unlocked by done.
  by rewrite Horder, (dialKnown_first_ok _ _ _ _ c).
Qed.

(** ** More on ensureClients *)

(** X8. After a pass that succeeds, [primAddr] is the address of the
    reported primary and the keys of [clients] are exactly the addresses of
    the reported primary and replicas: no other address survives the pass.
    The known Sentinels and the latch are untouched. *)
Theorem ensureClients_topology (o1 o2 o3 : Order) (pf : ClientFunc)
    (conn : Conn) (sc sc' : Sentinel) (evs : list Event) :
  ensureClients o1 o2 o3 pf conn sc = (Ret None, sc', evs) →
  ∃ primM secMM,
    masterSlaves conn = Ok (primM, secMM) ∧
    primAddr sc' = mAddr primM ∧
    (∀ k, is_Some (clients sc' !! k) ↔
          k = mAddr primM ∨ ∃ m, m ∈ secMM ∧ k = mAddr m) ∧
    sentinelAddrs sc' = sentinelAddrs sc ∧
    closed sc' = closed sc.
Proof.
  intros Hrun.
  apply ensureClients_run in Hrun as [([e ?] & _)|Hc]; [done|].
  destruct Hc as (primM & secMM & sc1 & nc & evs1 & r2 & evs2 &
    Hreply & _ & Hg & -> & _ & _ & _ & Hkeys & _).
  exists primM, secMM. cbn. split; [done|]. split; [done|]. split; [done|].
  split; apply Hg.
Qed.

Lemma ensureClients_no_panic o1 o2 o3 pf conn sc :
  (∀ k, clients sc !! k ≠ Some None) →
  ∃ r sc' evs, ensureClients o1 o2 o3 pf conn sc = (Ret r, sc', evs).
Proof.
  intros Hnn.
  destruct (ensureClients o1 o2 o3 pf conn sc) as [[r sc'] evs] eqn:Hrun.
  apply ensureClients_run in Hrun as [([e ->] & _)|Hc]; [eauto|].
  destruct Hc as (primM & secMM & sc1 & nc & evs1 & r2 & evs2 &
    _ & _ & Hg & -> & _ & _ & _ & _ & _ & _ & Hclose & ->).
  destruct (closeAll_spec
    (filter (λ kv, nc !! kv.1 = None) (range o3 (clients sc1))).*2
    (set_topology (mAddr primM) nc sc1)) as (r & evs' & Hrun & _ & Hok).
  rewrite Hclose in Hrun. injection Hrun as <- <-.
  destruct Hok as [-> _]; [|eauto].
  intros c Hin ->. apply list_elem_of_fmap in Hin as ([k v] & Hv & Hin).
  cbn in Hv. subst v. apply list_elem_of_filter in Hin as [_ Hin].
  apply elem_of_range in Hin. by eapply grows_no_nil in Hin.
Qed.

(** X9. On a constructed Sentinel, closed or not, ensureClients, Do and
    DoSecondary always return: none of the nil dereferences that the code
    leaves unguarded (the client of the primary in Do, the clients to close
    after the commit) can happen. *)
Theorem constructed_never_panics (o1 o2 o3 : Order) (pf : ClientFunc)
    (conn : Conn) (a : Action) (sc : Sentinel) :
  reachable sc →
  (∃ r sc' evs, ensureClients o1 o2 o3 pf conn sc = (Ret r, sc', evs)) ∧
  (∃ r evs, Do a sc = (Ret r, sc, evs)) ∧
  (∃ r evs, DoSecondary o1 pf a sc = (Ret r, sc, evs)).
Proof.
  intros Hr. pose proof (reachable_wf _ Hr) as Hwf.
  split; [apply ensureClients_no_panic, Hwf|].
  destruct (closed sc) eqn:Hc.
  - split.
    + unfold Do, WithRLock, bind, get, ret. rewrite Hc. eauto.
    + unfold DoSecondary, client, client_rlock, WithRLock, bind, get, ret.
      rewrite Hc. eauto.
  - split.
    + destruct (Do_on_primary_lemma a sc Hwf Hc) as (p & _ & ->). eauto.
    + destruct (client_secondary o1 pf sc Hwf Hc) as (k & p & _ & Hrun & _).
      unfold DoSecondary, bind. rewrite Hrun. cbn. eauto.
Qed.

(** ** More on NewSentinel *)

Lemma foldl_insert_keeps (addrs : list string) (acc : gmap string bool) k :
  is_Some (acc !! k) →
  is_Some (foldl (λ m addr, <[addr := true]> m) acc addrs !! k).
Proof.
  revert acc. induction addrs as [|a addrs IH]; intros acc Hk; [done|].
  cbn [foldl]. apply IH. rewrite lookup_insert. by case_decide.
Qed.

Lemma newSentinel_known primaryName addr0 addrs :
  sentinelAddrs (newSentinel primaryName (addr0 :: addrs)) ≠ ∅.
Proof.
  intros Hempty.
  assert (is_Some (sentinelAddrs (newSentinel primaryName (addr0 :: addrs)) !! addr0))
    as [v Hv].
  { cbn. apply foldl_insert_keeps. by rewrite lookup_insert_eq. }
  by rewrite Hempty, lookup_empty in Hv.
Qed.

Lemma newSentinel_keys primaryName addrs k :
  is_Some (sentinelAddrs (newSentinel primaryName addrs) !! k) → k ∈ addrs.
Proof.
  cbn.
  assert (∀ acc : gmap string bool,
    is_Some (foldl (λ m addr, <[addr := true]> m) acc addrs !! k) →
    is_Some (acc !! k) ∨ k ∈ addrs) as Hgen.
  { induction addrs as [|a addrs IH]; intros acc; cbn [foldl]; [eauto|].
    intros [Hk|Hk]%IH; [|right; by right].
    rewrite lookup_insert in Hk. case_decide; subst; [right; left|by left]. }
  intros [Hk|Hk]%Hgen; [|done]. rewrite lookup_empty in Hk. by destruct Hk.
Qed.

Lemma bootstrap_no_panic os cf pf pubsub sc0 :
  initAddrs sc0 ≠ [] → sentinelAddrs sc0 ≠ ∅ →
  (∀ k, clients sc0 !! k ≠ Some None) →
  ∃ r sc evs, bootstrap os cf pf pubsub sc0 = (Ret r, sc, evs).
Proof.
  intros Hinit Hknown Hnn. unfold bootstrap, bind, get.
  destruct (initAddrs sc0) as [|a0 rest]; [done|].
  destruct (dialSentinel_conn_xor_err (o_dial os) cf sc0 Hknown) as [[c ->]|[e ->]];
    [|unfold ret; eauto].
  destruct (ensureSentinelAddrs_run c sc0) as (err & sc1 & -> & _ & _ & Hcl).
  destruct err as [e|]; [unfold ret; eauto|].
  destruct (ensureClients_no_panic (o_new os) (o_cl os) (o_old os) pf c sc1)
    as (r & sc2 & evs2 & ->); [by rewrite Hcl|].
  destruct r as [e|]; [unfold ret; cbn; eauto|].
  destruct pubsub as [e|]; [|unfold ret; cbn; eauto].
  destruct (Close_run (o_close os) sc2) as (err & sc3 & evs3 & -> & _).
  unfold ret. cbn. eauto.
Qed.

(** X10. NewSentinel panics exactly when it is given no address (it indexes
    the first one); with at least one address it always returns, an error
    or a Sentinel. *)
Theorem NewSentinel_panics_iff_no_address (os : Orders) (cf : ConnFunc)
    (pf : ClientFunc) (pubsub : option error) (primaryName : string)
    (addrs : list string) :
  (∃ msg sc evs,
     NewSentinel os cf pf pubsub primaryName addrs = (Panic msg, sc, evs))
  ↔ addrs = [].
Proof.
  split.
  - intros (msg & sc & evs & Hrun). destruct addrs as [|addr0 addrs]; [done|].
    destruct (bootstrap_no_panic os cf pf pubsub
                (newSentinel primaryName (addr0 :: addrs)))
      as (r & sc' & evs' & Hret); [done|apply newSentinel_known|done|].
    unfold NewSentinel in Hrun. by rewrite Hret in Hrun.
  - intros ->. unfold NewSentinel, bootstrap, bind, get, panic. cbn. eauto.
Qed.

(** X11. When the dial of every given address fails, NewSentinel returns
    the error of one of these dials; it creates no pool and leaves nothing
    behind. *)
Theorem NewSentinel_unreachable (os : Orders) (cf : ConnFunc) (pf : ClientFunc)
    (pubsub : option error) (primaryName : string) (addrs : list string) :
  addrs ≠ [] →
  (∀ a, a ∈ addrs → ∃ e, cf a = Err e) →
  ∃ a e,
    a ∈ addrs ∧ cf a = Err e ∧
    NewSentinel os cf pf pubsub primaryName addrs =
      (Ret (Some e), newSentinel primaryName addrs, []).
Proof.
  intros Hne Hall. destruct addrs as [|addr0 addrs]; [done|].
  set (sc0 := newSentinel primaryName (addr0 :: addrs)).
  assert (∀ a, is_Some (sentinelAddrs sc0 !! a) → ∃ e, cf a = Err e) as Hknown.
  { intros a Ha. apply Hall. by apply newSentinel_keys in Ha. }
  assert (∀ a, a ∈ (range (o_dial os) (sentinelAddrs sc0)).*1 → ∃ e, cf a = Err e)
    as Hk.
  { intros a Ha. apply Hknown. by apply elem_of_range_keys in Ha. }
  pose proof (range_nonempty (o_dial os) (sentinelAddrs sc0)
                (newSentinel_known primaryName addr0 addrs)) as Hnonempty.
  destruct (last (range (o_dial os) (sentinelAddrs sc0)).*1) as [a|] eqn:Hlast;
    [|by apply last_None in Hlast].
  assert (a ∈ (range (o_dial os) (sentinelAddrs sc0)).*1) as Hin
    by by apply last_Some_elem_of.
  destruct (Hk a Hin) as [e He].
  exists a, e. split.
  { apply newSentinel_keys with primaryName. by apply elem_of_range_keys in Hin. }
  split; [done|].
  unfold NewSentinel, bootstrap, bind, get. fold sc0.
  change (initAddrs sc0) with (addr0 :: addrs). cbv beta iota.
  rewrite dialSentinel_unlocked by done.
  rewrite dialKnown_all_fail by done.
  rewrite dialInit_all_fail by done.
  rewrite Hlast. unfold dialErr. rewrite He.
  destruct (range (o_dial os) (sentinelAddrs sc0)).*1; [done|]. done.
Qed.

(** ** The pass that NewSentinel runs *)

Lemma client_bootstrap o pf addr sc :
  bootstrapping sc → addr ≠ "" → clients sc !! addr = None →
  client o pf addr sc =
    match pf addr with
    | Some e => (Ret (None, Some e), sc, [EvCreateFailed addr e])
    | None =>
        (Ret (Some (mkPool (poolSeq sc) addr), None),
         set_clients (insert addr (Some (mkPool (poolSeq sc) addr)))
                     (bump_poolSeq sc),
         [EvCreate (mkPool (poolSeq sc) addr)])
    end.
Proof.
  intros (Hc & Hp & Hempty & _) Ha Hnone.
  rewrite client_nonempty_addr, Hc, Hp by done.
  unfold client_at. rewrite Hempty, Hnone. cbn.
  by destruct (pf addr).
Qed.

Lemma ensureAll_bootstrap o pf addrs nc sc r sc' evs :
  NoDup addrs →
  (∀ a, a ∈ addrs → a ≠ "" ∧ clients sc !! a = None) →
  bootstrapping sc →
  ensureAll o pf addrs nc sc = (r, sc', evs) →
  bootstrapping sc' ∧
  (∀ p, EvClose p ∉ evs) ∧
  (∀ p, EvCreate p ∈ evs → clients sc' !! pool_addr p = Some (Some p)) ∧
  (∀ k, k ∉ addrs → clients sc' !! k = clients sc !! k) ∧
  (∀ nc', r = Ret (nc', None) → ∀ a, a ∈ addrs → is_Some (clients sc' !! a)).
Proof.
  revert nc sc r sc' evs.
  induction addrs as [|addr rest IH]; intros nc sc r sc' evs Hnd Hfresh Hb;
    cbn [ensureAll].
  - intros [= <- <- <-]. split; [done|]. split.
    { intros p Hin. by apply elem_of_nil in Hin. }
    split; [intros p Hin; by apply elem_of_nil in Hin|]. split; [done|].
    intros nc' _ a Ha. by apply elem_of_nil in Ha.
  - apply NoDup_cons in Hnd as [Hnotin Hnd].
    destruct (Hfresh addr) as [Hne Hnone]; [left|].
    unfold bind. rewrite client_bootstrap by done.
    destruct (pf addr) as [e|].
    { intros [= <- <- <-]. split; [done|]. split.
      { intros p Hin. by apply list_elem_of_singleton in Hin. }
      split; [intros p Hin; by apply list_elem_of_singleton in Hin|].
      split; [done|]. by intros nc' [=]. }
    set (p0 := mkPool (poolSeq sc) addr).
    set (sc0 := set_clients (insert addr (Some p0)) (bump_poolSeq sc)).
    assert (bootstrapping sc0) as Hb0.
    { destruct Hb as (Hc & Hp & Hempty & Hown).
      split; [done|]. split; [done|]. split.
      - cbn. by rewrite lookup_insert_ne.
      - intros k v. cbn. rewrite lookup_insert. case_decide; subst.
        + intros [= <-]. by exists p0.
        + apply Hown. }
    assert (∀ a, a ∈ rest → a ≠ "" ∧ clients sc0 !! a = None) as Hfresh0.
    { intros a Ha. destruct (Hfresh a) as [? ?]; [by right|]. split; [done|].
      cbn. rewrite lookup_insert_ne; [done|]. by intros ->. }
    destruct (ensureAll o pf rest _ sc0) as [[r1 sc1] evs1] eqn:Hrest.
    intros [= <- <- <-].
    apply IH in Hrest as (Hb1 & Hcl1 & Hcr1 & Hout1 & Hin1); [|done..].
    split; [done|]. split.
    { intros p [Hin|Hin]%elem_of_cons; [done|by apply Hcl1 in Hin]. }
    split.
    { intros p [Hin|Hin]%elem_of_cons; [|by apply Hcr1].
      injection Hin as ->. cbn. rewrite Hout1 by done.
      cbn. by rewrite lookup_insert_eq. }
    split.
    { intros k Hk. rewrite not_elem_of_cons in Hk. destruct Hk.
      rewrite Hout1 by done. cbn. by rewrite lookup_insert_ne. }
    intros nc' -> a [->|Ha]%elem_of_cons; [|by eapply Hin1].
    rewrite Hout1 by done. cbn. rewrite lookup_insert_eq. eauto.
Qed.

Lemma filter_none {A} (P : A → Prop) `{!∀ x, Decision (P x)} (l : list A) :
  (∀ x, x ∈ l → ¬ P x) → filter P l = [].
Proof.
  induction l as [|x l IH]; intros Hall; [done|].
  rewrite filter_cons_False by (apply Hall; left).
  apply IH. intros y Hy. apply Hall. by right.
Qed.

Lemma ensureClients_bootstrap o1 o2 o3 pf conn sc r sc' evs :
  closed sc = false → primAddr sc = "" → clients sc = ∅ →
  ensureClients o1 o2 o3 pf conn sc = (r, sc', evs) →
  own_pools sc' ∧
  (∀ p, EvClose p ∉ evs) ∧
  (∀ p, EvCreate p ∈ evs → clients sc' !! pool_addr p = Some (Some p)).
Proof.
  intros Hc Hp Hempty.
  assert (bootstrapping sc) as Hb.
  { split; [done|]. split; [done|]. split; [by rewrite Hempty|].
    intros k v Hk. by rewrite Hempty, lookup_empty in Hk. }
  assert (own_pools sc ∧ (∀ p, EvClose p ∉ []) ∧
          (∀ p, EvCreate p ∈ [] → clients sc !! pool_addr p = Some (Some p)))
    as Hstart.
  { split; [apply Hb|]. split; intros p Hin; by apply elem_of_nil in Hin. }
  unfold ensureClients.
  destruct (masterSlaves conn) as [[primM secMM]|e0]; [|by intros [= <- <- <-]].
  destruct (sentinelMtoAddr primM _) as [newPrim [e0|]] eqn:Hm;
    [by intros [= <- <- <-]|].
  apply sentinelMtoAddr_ok in Hm as [_ ->].
  destruct (secondaryAddrs secMM _) as [nc0 [e0|]] eqn:Hsec;
    [by intros [= <- <- <-]|].
  clear Hstart.
  apply secondaryAddrs_keys in Hsec as (_ & Hne & _).
  assert (∀ a, a ∈ (range o1 nc0).*1 → a ≠ "") as Hne'.
  { intros a Ha%elem_of_range_keys. destruct (Hne a Ha) as [Hs|?]; [|done].
    apply lookup_singleton_is_Some in Hs as <-. apply JoinHostPort_nonempty. }
  unfold bind.
  destruct (ensureAll o2 pf _ nc0 sc) as [[r1 sc1] evs1] eqn:Hall.
  pose proof Hall as Hall'.
  apply ensureAll_spec in Hall' as (_ & _ & Hr1); [|done].
  apply ensureAll_bootstrap in Hall as (Hb1 & Hcl1 & Hcr1 & Hout1 & Hin1);
    [|apply NoDup_fst_range| |done].
  2:{ intros a Ha. split; [by apply Hne'|]. by rewrite Hempty. }
  destruct r1 as [[nc1 [e1|]]|]; [| |done].
  { intros [= <- <- <-]. rewrite app_nil_r. split; [apply Hb1|done]. }
  destruct Hr1 as (Hin & Hout & _).
  specialize (Hin1 nc1 eq_refl).
  rewrite commitClients_unlocked by apply Hb1.
  destruct (carryOver (range o3 (clients sc1)) nc1 []) as [nc tc] eqn:Hcarry.
  apply carryOver_spec in Hcarry as (Hdom & Hcout & Hcin & Htc). cbn [fst snd].
  assert (∀ k, is_Some (clients sc1 !! k) → k ∈ (range o1 nc0).*1) as Hkeys1.
  { intros k Hk. destruct (decide (k ∈ (range o1 nc0).*1)) as [|Hnot]; [done|].
    rewrite Hout1 in Hk by done. rewrite Hempty in Hk.
    by apply is_Some_None in Hk. }
  assert (tc = []) as ->.
  { rewrite Htc. cbn. rewrite filter_none; [done|].
    intros [k v] Hkv%elem_of_range Hnone. cbn in Hnone.
    destruct (Hin k) as [p Hp']; [apply Hkeys1; eauto|]. by rewrite Hp' in Hnone. }
  cbn [closeAll]. unfold ret. intros [= <- <- <-]. cbn.
  assert (∀ k v, clients sc1 !! k = Some v → nc !! k = Some v) as Hsame.
  { intros k v Hk. apply Hcin.
    - apply NoDup_fst_range.
    - by apply elem_of_range.
    - destruct (Hin k) as [p Hp']; [apply Hkeys1; eauto|]. by rewrite Hp'. }
  split; [|split].
  - intros k v Hk. cbn in Hk.
    assert (k ∈ (range o1 nc0).*1) as Hk0.
    { destruct (decide (k ∈ (range o1 nc0).*1)) as [|Hnot]; [done|].
      assert (is_Some (nc1 !! k)) as Hs by (apply Hdom; eauto).
      rewrite Hout in Hs by done. exfalso. apply Hnot.
      by apply elem_of_range_keys. }
    destruct (Hin1 k Hk0) as [v' Hv'].
    rewrite (Hsame _ _ Hv') in Hk. injection Hk as <-.
    by apply Hb1 in Hv'.
  - intros p Hin'. rewrite ?app_nil_r in Hin'.
    apply elem_of_app in Hin' as [Hin'|Hin']; [by apply Hcl1 in Hin'|].
    by apply list_elem_of_singleton in Hin'.
  - intros p Hin'. rewrite ?app_nil_r in Hin'.
    apply elem_of_app in Hin' as [Hin'|Hin'];
      [|by apply list_elem_of_singleton in Hin'].
    apply Hsame. by apply Hcr1.
Qed.

Lemma NewSentinel_bootstrap os cf pf primaryName addrs r sc evs :
  NewSentinel os cf pf None primaryName addrs = (r, sc, evs) →
  own_pools sc ∧
  (∀ p, EvClose p ∉ evs) ∧
  (∀ p, EvCreate p ∈ evs → clients sc !! pool_addr p = Some (Some p)).
Proof.
  assert (∀ sc0 : Sentinel, clients sc0 = ∅ →
    own_pools sc0 ∧ (∀ p, EvClose p ∉ []) ∧
    (∀ p, EvCreate p ∈ [] → clients sc0 !! pool_addr p = Some (Some p)))
    as Hstart.
  { intros sc0 Hempty. split.
    - intros k v Hk. by rewrite Hempty, lookup_empty in Hk.
    - split; intros p Hin; by apply elem_of_nil in Hin. }
  unfold NewSentinel, bootstrap, bind, get.
  destruct addrs as [|addr0 addrs].
  { unfold panic. intros [= <- <- <-]. by apply Hstart. }
  change (initAddrs (newSentinel primaryName (addr0 :: addrs))) with (addr0 :: addrs).
  cbv beta iota.
  assert (closed (newSentinel primaryName (addr0 :: addrs)) = false ∧
          primAddr (newSentinel primaryName (addr0 :: addrs)) = "" ∧
          clients (newSentinel primaryName (addr0 :: addrs)) = ∅) as H0 by done.
  revert H0. generalize (newSentinel primaryName (addr0 :: addrs)).
  intros sc0 (Hc0 & Hp0 & He0).
  destruct (dialSentinel_run (o_dial os) cf sc0) as [[conn err] ->].
  destruct err as [e|]; [unfold ret; intros [= <- <- <-]; by apply Hstart|].
  destruct conn as [conn|]; [|unfold panic; intros [= <- <- <-]; by apply Hstart].
  destruct (ensureSentinelAddrs_run conn sc0) as (err & sc1 & -> & Hc1 & Hp1 & He1).
  destruct err as [e|].
  { unfold ret. intros [= <- <- <-]. apply Hstart. by rewrite He1. }
  destruct (ensureClients _ _ _ pf conn sc1) as [[r2 sc2] evs2] eqn:Hrun.
  apply ensureClients_bootstrap in Hrun; [|congruence..].
  destruct r2 as [[e|]|msg]; unfold ret; cbn; intros [= <- <- <-];
    by rewrite ?app_nil_r.
Qed.

(** X12. A Sentinel that NewSentinel returns holds, for every address of
    [clients], a pool that was created for that very address; so no two
    addresses share a pool. *)
Theorem NewSentinel_own_pools (os : Orders) (cf : ConnFunc) (pf : ClientFunc)
    (primaryName : string) (addrs : list string) (sc : Sentinel)
    (evs : list Event) :
  NewSentinel os cf pf None primaryName addrs = (Ret None, sc, evs) →
  (∀ k v, clients sc !! k = Some v → ∃ p, v = Some p ∧ pool_addr p = k) ∧
  (∀ k1 k2 p, clients sc !! k1 = Some (Some p) →
              clients sc !! k2 = Some (Some p) → k1 = k2).
Proof.
  intros (Hown & _)%NewSentinel_bootstrap. split; [done|].
  intros k1 k2 p (p1 & [= <-] & <-)%Hown (p2 & [= <-] & <-)%Hown. done.
Qed.


(** ** The topology trace *)

Lemma range_filter_any {V} o (m : gmap string V) (P : string * V → Prop)
    `{!∀ kv, Decision (P kv)} :
  filter P (range o m) ≡ₚ map_to_list (filter P m).
Proof.
  apply NoDup_Permutation.
  - apply NoDup_filter. rewrite range_perm. apply NoDup_map_to_list.
  - apply NoDup_map_to_list.
  - intros [k v]. rewrite list_elem_of_filter, elem_of_range, elem_of_map_to_list.
    rewrite map_lookup_filter_Some. cbn. split; intros [? ?]; split; done.
Qed.

Lemma topoAdded_spec prevTopo entries added :
  topoAdded prevTopo entries added =
  added ++ (filter (λ kv, prevTopo !! kv.1 = None) entries).*2.
Proof.
  revert added. induction entries as [|[k n] rest IH]; intros added;
    cbn [topoAdded].
  - by rewrite app_nil_r.
  - destruct (prevTopo !! k) as [p|] eqn:Hk; rewrite IH.
    + by rewrite filter_cons_False by (cbn; by rewrite Hk).
    + rewrite filter_cons_True by done. cbn. by rewrite <- app_assoc.
Qed.

Lemma topoRemovedChanged_spec newTopo entries removed changed :
  topoRemovedChanged newTopo entries removed changed =
  (removed ++ (filter (λ kv, newTopo !! kv.1 = None) entries).*2,
   changed ++ (omap (changedPair newTopo) entries).*2).
Proof.
  revert removed changed.
  induction entries as [|[k p] rest IH]; intros removed changed;
    cbn [topoRemovedChanged].
  - by rewrite !app_nil_r.
  - cbn [omap list_omap]. unfold changedPair at 1. cbn [fst snd].
    destruct (newTopo !! k) as [n|] eqn:Hk.
    + rewrite filter_cons_False by (cbn; by rewrite Hk).
      destruct (decide (n ≠ p)); rewrite IH; cbn; [|done].
      by rewrite <- app_assoc.
    + rewrite IH, filter_cons_True by done. cbn. by rewrite <- app_assoc.
Qed.

Lemma changedPair_keys newTopo entries :
  NoDup entries.*1 → NoDup (omap (changedPair newTopo) entries).
Proof.
  induction entries as [|[k p] rest IH]; intros Hnd; [constructor|].
  cbn in Hnd. apply NoDup_cons in Hnd as [Hk Hnd].
  cbn [omap list_omap]. destruct (changedPair newTopo (k, p)) as [[k' n]|] eqn:Hc;
    [|by apply IH].
  apply NoDup_cons. split; [|by apply IH].
  intros Hin. apply list_elem_of_omap in Hin as ([k2 p2] & Hin & Hc2).
  unfold changedPair in Hc, Hc2. cbn in Hc, Hc2.
  destruct (newTopo !! k) as [n1|]; [|done].
  destruct (newTopo !! k2) as [n2|]; [|done].
  repeat case_decide; simplify_eq.
  apply Hk. apply list_elem_of_fmap. eexists. split; [|exact Hin]. done.
Qed.

Lemma changed_perm o (prevTopo newTopo : Topo) :
  omap (changedPair newTopo) (range o prevTopo) ≡ₚ
  map_to_list (filter (roleChanged prevTopo) newTopo).
Proof.
  apply NoDup_Permutation.
  - apply changedPair_keys, NoDup_fst_range.
  - apply NoDup_map_to_list.
  - intros [k n]. rewrite list_elem_of_omap, elem_of_map_to_list.
    rewrite map_lookup_filter_Some. unfold roleChanged, changedPair. cbn. split.
    + intros ([k' p] & Hin%elem_of_range & Hc). cbn in Hc.
      destruct (newTopo !! k') as [n'|] eqn:Hn; [|done].
      case_decide; simplify_eq. by rewrite Hin.
    + intros [Hn Hrole]. destruct (prevTopo !! k) as [p|] eqn:Hp; [|done].
      exists (k, p). split; [by apply elem_of_range|].
      cbn. rewrite Hn. by rewrite decide_True.
Qed.

(** What the hook is called with, when it is set. *)
Lemma traceTopoChanged_lists o_prev o_new prevTopo newTopo :
  ∃ added removed changed,
    added ≡ₚ (map_to_list (filter (λ kv, prevTopo !! kv.1 = None) newTopo)).*2 ∧
    removed ≡ₚ (map_to_list (filter (λ kv, newTopo !! kv.1 = None) prevTopo)).*2 ∧
    changed ≡ₚ (map_to_list (filter (roleChanged prevTopo) newTopo)).*2 ∧
    traceTopoChanged o_prev o_new true prevTopo newTopo =
      if decide (length added + length removed + length changed = 0)%nat
      then None else Some (mkTopoChanged added removed changed).
Proof.
  unfold traceTopoChanged.
  rewrite topoRemovedChanged_spec, topoAdded_spec. cbn [app].
  eexists _, _, _. split; [|split; [|split; [|reflexivity]]].
  - by rewrite range_filter_any.
  - by rewrite range_filter_any.
  - by rewrite changed_perm.
Qed.

Lemma filter_map_empty {V} (P : string * V → Prop) `{!∀ kv, Decision (P kv)}
    (m : gmap string V) :
  (map_to_list (filter P m)).*2 = [] ↔ ∀ k v, m !! k = Some v → ¬ P (k, v).
Proof.
  split.
  - intros Hnil k v Hk HP.
    assert ((k, v) ∈ map_to_list (filter P m)) as Hin.
    { apply elem_of_map_to_list. by apply map_lookup_filter_Some. }
    apply fmap_nil_inv in Hnil. rewrite Hnil in Hin. by apply elem_of_nil in Hin.
  - intros Hall.
    destruct (map_to_list (filter P m)) as [|[k v] rest] eqn:Hl; [done|].
    assert ((k, v) ∈ map_to_list (filter P m)) as Hin by (rewrite Hl; left).
    apply elem_of_map_to_list, map_lookup_filter_Some in Hin as [Hk HP].
    by apply Hall in Hk.
Qed.

Lemma traceTopoChanged_None_iff o_prev o_new (prevTopo newTopo : Topo) :
  traceTopoChanged o_prev o_new true prevTopo newTopo = None ↔
  prevTopo = newTopo.
Proof.
  destruct (traceTopoChanged_lists o_prev o_new prevTopo newTopo)
    as (added & removed & changed & Ha & Hr & Hc & ->).
  split.
  - intros Hnone. case_decide as Hlen; [|done].
    assert (added = [] ∧ removed = [] ∧ changed = []) as (-> & -> & ->).
    { destruct added, removed, changed; cbn in Hlen; try lia. done. }
    symmetry in Ha, Hr, Hc.
    apply Permutation_nil_r in Ha, Hr, Hc.
    pose proof (proj1 (filter_map_empty _ _) Ha) as Ha'.
    pose proof (proj1 (filter_map_empty _ _) Hr) as Hr'.
    pose proof (proj1 (filter_map_empty _ _) Hc) as Hc'.
    apply map_eq. intros k.
    destruct (prevTopo !! k) as [p|] eqn:Hp, (newTopo !! k) as [n|] eqn:Hn;
      [| | |done].
    + f_equal. destruct (decide (n = p)) as [->|Hne]; [done|].
      exfalso. apply (Hc' k n Hn). unfold roleChanged. cbn. by rewrite Hp.
    + exfalso. by apply (Hr' k p Hp).
    + exfalso. by apply (Ha' k n Hn).
  - intros Heq. subst newTopo. rewrite decide_True; [done|].
    assert (added = [] ∧ removed = [] ∧ changed = []) as (-> & -> & ->); [|done].
    split; [|split]; apply Permutation_nil_r.
    + rewrite Ha. apply Permutation_nil_r, filter_map_empty.
      intros k v Hk Hnone. cbn in Hnone. by rewrite Hk in Hnone.
    + rewrite Hr. apply Permutation_nil_r, filter_map_empty.
      intros k v Hk Hnone. cbn in Hnone. by rewrite Hk in Hnone.
    + rewrite Hc. apply Permutation_nil_r, filter_map_empty.
      intros k v Hk Hrole.
      unfold roleChanged in Hrole. cbn in Hrole. by rewrite Hk in Hrole.
Qed.

(** X14. The TopoChanged hook, when it is set, is called with: as Added the
    nodes of the new topology whose address the previous one does not have,
    as Removed the nodes of the previous topology whose address the new one
    does not have, as Changed the new nodes whose address the previous
    topology has with another node; and it is not called at all exactly
    when the two topologies are equal. Without a hook nothing is called. *)
Theorem traceTopoChanged_spec (o_prev o_new : Order) (prevTopo newTopo : Topo) :
  (traceTopoChanged o_prev o_new false prevTopo newTopo = None) ∧
  (traceTopoChanged o_prev o_new true prevTopo newTopo = None ↔
   prevTopo = newTopo) ∧
  (∀ tc, traceTopoChanged o_prev o_new true prevTopo newTopo = Some tc →
     Added tc ≡ₚ
       (map_to_list (filter (λ kv, prevTopo !! kv.1 = None) newTopo)).*2 ∧
     Removed tc ≡ₚ
       (map_to_list (filter (λ kv, newTopo !! kv.1 = None) prevTopo)).*2 ∧
     Changed tc ≡ₚ
       (map_to_list (filter (roleChanged prevTopo) newTopo)).*2).
Proof.
  split; [done|]. split; [apply traceTopoChanged_None_iff|].
  destruct (traceTopoChanged_lists o_prev o_new prevTopo newTopo)
    as (added & removed & changed & Ha & Hr & Hc & ->).
  intros tc. case_decide; [done|]. by intros [= <-].
Qed.

(** ** ensureClients and its trace *)

Lemma foldl_nodes_lookup prim (addrs : list string) (tn : Topo) k :
  foldl (λ t a, <[a := mkNodeInfo a (bool_decide (a = prim))]> t) tn addrs !! k =
  if decide (k ∈ addrs) then Some (mkNodeInfo k (bool_decide (k = prim)))
  else tn !! k.
Proof.
  revert tn. induction addrs as [|a addrs IH]; intros tn; cbn [foldl].
  - rewrite decide_False; [done|]. apply not_elem_of_nil.
  - rewrite IH. destruct (decide (k ∈ addrs)) as [Hin|Hnot].
    + rewrite decide_True; [done|by right].
    + rewrite lookup_insert. destruct (decide (a = k)) as [->|Hne].
      * rewrite decide_True; [done|left].
      * rewrite decide_False; [done|]. by intros [->|?]%elem_of_cons.
Qed.

Lemma topoOf_lookup {V} prim (m : gmap string V) k :
  topoOf prim m !! k =
  match m !! k with
  | Some _ => Some (mkNodeInfo k (bool_decide (k = prim)))
  | None => None
  end.
Proof. unfold topoOf. rewrite map_lookup_imap. by destruct (m !! k). Qed.

Lemma foldl_nodes_topoOf {V} prim o (m : gmap string V) :
  foldl (λ t a, <[a := mkNodeInfo a (bool_decide (a = prim))]> t) ∅
        (range o m).*1 = topoOf prim m.
Proof.
  apply map_eq. intros k. rewrite foldl_nodes_lookup, topoOf_lookup.
  destruct (decide (k ∈ (range o m).*1)) as [Hin|Hnot].
  - apply elem_of_range_keys in Hin as [v ->]. done.
  - rewrite elem_of_range_keys in Hnot.
    destruct (m !! k) eqn:Hk; [|done]. exfalso. apply Hnot. eauto.
Qed.

Lemma topoOf_same_keys {V W} prim (m : gmap string V) (m' : gmap string W) :
  (∀ k, is_Some (m !! k) ↔ is_Some (m' !! k)) → topoOf prim m = topoOf prim m'.
Proof.
  intros Hdom. apply map_eq. intros k. rewrite !topoOf_lookup.
  specialize (Hdom k).
  destruct (m !! k) as [v|], (m' !! k) as [w|]; try done.
  - destruct Hdom as [Hd _]. destruct Hd as [? ?]; [eauto|done].
  - destruct Hdom as [_ Hd]. destruct Hd as [? ?]; [eauto|done].
Qed.

Lemma ensureAllT_ensureAll o pf prim addrs nc tn sc :
  ∃ tnErr,
    ensureAllT o pf prim addrs nc tn sc =
      match ensureAll o pf addrs nc sc with
      | (Ret (nc', None), sc', evs) =>
          (Ret (nc',
                foldl (λ t a, <[a := mkNodeInfo a (bool_decide (a = prim))]> t)
                      tn addrs, None), sc', evs)
      | (Ret (nc', Some e), sc', evs) => (Ret (nc', tnErr, Some e), sc', evs)
      | (Panic msg, sc', evs) => (Panic msg, sc', evs)
      end.
Proof.
  revert nc tn sc. induction addrs as [|addr rest IH]; intros nc tn sc;
    cbn [ensureAllT ensureAll foldl].
  - by exists tn.
  - unfold bind.
    destruct (client o pf addr sc) as [[[[c [e|]]|msg] sc0] evs0];
      [by exists tn| |by exists tn].
    destruct (IH (<[addr:=c]> nc)
                 (<[addr:=mkNodeInfo addr (bool_decide (addr = prim))]> tn) sc0)
      as [tnErr ->].
    exists tnErr.
    by destruct (ensureAll o pf rest _ sc0) as [[[[nc' [e|]]|msg] sc1] evs1].
Qed.

Lemma carryOverT_carryOver prim entries nc tc tn :
  carryOverT prim entries nc tc tn =
    ((carryOver entries nc tc).1, (carryOver entries nc tc).2,
     foldl (λ t a, <[a := mkNodeInfo a (bool_decide (a = prim))]> t)
           tn entries.*1).
Proof.
  revert nc tc tn. induction entries as [|[a c] rest IH]; intros nc tc tn;
    cbn [carryOverT carryOver fmap list_fmap foldl fst]; [done|].
  by destruct (nc !! a); rewrite IH.
Qed.

Lemma commitClientsT_commitClients o newPrimAddr nc sc :
  commitClientsT o newPrimAddr nc sc =
    match commitClients o newPrimAddr nc sc with
    | (Ret (toClose, None), sc', evs) =>
        (Ret ((toClose, topoOf (primAddr sc) (clients sc)), None), sc', evs)
    | (Ret (toClose, Some e), sc', evs) => (Ret ((toClose, ∅), Some e), sc', evs)
    | (Panic msg, sc', evs) => (Panic msg, sc', evs)
    end.
Proof.
  unfold commitClientsT, commitClients, WithLock, bind, get, ret, modify, emit.
  destruct (closed sc); [done|].
  rewrite carryOverT_carryOver, foldl_nodes_topoOf.
  by destruct (carryOver _ _ _).
Qed.

(** [ensureClientsT] is [ensureClients] together with the argument of the
    hook: same result, same Sentinel, same events. *)
Lemma ensureClientsT_ensureClients o1 o2 o3 o4 o5 tracer pf conn sc :
  ensureClientsT o1 o2 o3 o4 o5 tracer pf conn sc =
    match ensureClients o1 o2 o3 pf conn sc with
    | (Ret (Some e), sc', evs) => (Ret (Some e, None), sc', evs)
    | (Ret None, sc', evs) =>
        (Ret (None,
              match masterSlaves conn with
              | Ok (primM, secMM) =>
                  traceTopoChanged o4 o5 tracer
                    (topoOf (primAddr (beforeCommit o1 o2 pf primM secMM sc))
                            (clients (beforeCommit o1 o2 pf primM secMM sc)))
                    (topoOf (mAddr primM) (desired primM secMM))
              | Err _ => None
              end), sc', evs)
    | (Panic msg, sc', evs) => (Panic msg, sc', evs)
    end.
Proof.
  unfold ensureClientsT, ensureClients, beforeCommit, desired.
  destruct (masterSlaves conn) as [[primM secMM]|e0]; [|done].
  destruct (sentinelMtoAddr primM _) as [newPrim [e0|]] eqn:Hm; [done|].
  apply sentinelMtoAddr_ok in Hm as [_ ->]. fold (mAddr primM).
  destruct (secondaryAddrs secMM _) as [nc0 [e0|]] eqn:Hsec; [done|].
  cbn [fst]. unfold bind.
  destruct (ensureAllT_ensureAll o2 pf (mAddr primM) (range o1 nc0).*1 nc0 ∅ sc)
    as [tnErr ->].
  destruct (ensureAll o2 pf _ nc0 sc) as [[[[nc1 [e1|]]|msg] sc1] evs1];
    [done| |done].
  rewrite commitClientsT_commitClients.
  destruct (commitClients o3 (mAddr primM) nc1 sc1)
    as [[[[tc [e2|]]|msg] sc2] evs2]; [done| |done].
  unfold state_of. cbn [fst snd].
  rewrite foldl_nodes_topoOf.
  by destruct (closeAll tc sc2) as [[[u|msg] sc3] evs3].
Qed.

Lemma ensureClients_success_inv o1 o2 o3 pf conn sc sc' evs :
  ensureClients o1 o2 o3 pf conn sc = (Ret None, sc', evs) →
  ∃ primM secMM nc1 evs1,
    masterSlaves conn = Ok (primM, secMM) ∧
    ensureAll o2 pf (range o1 (desired primM secMM)).*1 (desired primM secMM) sc
      = (Ret (nc1, None), beforeCommit o1 o2 pf primM secMM sc, evs1) ∧
    (∀ a, a ∈ (range o1 (desired primM secMM)).*1 → a ≠ "") ∧
    primAddr sc' = mAddr primM ∧
    is_Some (desired primM secMM !! mAddr primM) ∧
    (∀ k, is_Some (clients sc' !! k) ↔ is_Some (desired primM secMM !! k)).
Proof.
  unfold ensureClients, beforeCommit, desired.
  destruct (masterSlaves conn) as [[primM secMM]|e0]; [|done].
  destruct (sentinelMtoAddr primM _) as [newPrim [e0|]] eqn:Hm; [done|].
  apply sentinelMtoAddr_ok in Hm as [_ ->]. fold (mAddr primM).
  destruct (secondaryAddrs secMM _) as [nc0 [e0|]] eqn:Hsec; [done|].
  pose proof Hsec as Hsec'.
  apply secondaryAddrs_keys in Hsec as (Hsub & Hne & _).
  assert (∀ a, a ∈ (range o1 nc0).*1 → a ≠ "") as Hne'.
  { intros a Ha%elem_of_range_keys. destruct (Hne a Ha) as [Hs|?]; [|done].
    apply lookup_singleton_is_Some in Hs as <-. apply JoinHostPort_nonempty. }
  cbn [fst]. unfold bind.
  destruct (ensureAll o2 pf _ nc0 sc) as [[r1 sc1] evs1] eqn:Hall.
  pose proof Hall as Hall'.
  apply ensureAll_spec in Hall' as (Hg & _ & Hr1); [|done].
  destruct r1 as [[nc1 [e1|]]|]; [done| |done].
  destruct Hr1 as (Hin1 & Hout1 & _).
  destruct (closed sc1) eqn:Hc1.
  { by rewrite commitClients_closed. }
  rewrite commitClients_unlocked by done.
  destruct (carryOver (range o3 (clients sc1)) nc1 []) as [nc tc] eqn:Hcarry.
  apply carryOver_spec in Hcarry as (Hdom & _). cbn [fst snd].
  destruct (closeAll_spec tc (set_topology (mAddr primM) nc sc1))
    as (r2 & evs2 & -> & _).
  destruct r2 as [u|msg]; [|done]. intros [= <- <-].
  exists primM, secMM, nc1, evs1. rewrite Hsec'. cbn [fst].
  split; [done|]. split; [by rewrite Hall|].
  split; [done|]. split; [done|]. split.
  { apply Hsub. by rewrite lookup_singleton_eq. }
  intros k. cbn. rewrite Hdom.
  destruct (decide (k ∈ (range o1 nc0).*1)) as [Hk|Hk].
  - destruct (Hin1 k Hk) as [p ->]. apply elem_of_range_keys in Hk. split; eauto.
  - by rewrite Hout1.
Qed.

Lemma topoOf_eq_iff {V W} prim prim' (m : gmap string V) (m' : gmap string W) :
  is_Some (m !! prim) → is_Some (m' !! prim') →
  topoOf prim m = topoOf prim' m' ↔
  prim = prim' ∧ ∀ k, is_Some (m !! k) ↔ is_Some (m' !! k).
Proof.
  intros [v Hv] [w Hw]. split.
  - intros Heq.
    assert (∀ k, topoOf prim m !! k = topoOf prim' m' !! k) as Hk
      by (intros k; by rewrite Heq).
    split.
    + specialize (Hk prim). rewrite !topoOf_lookup, Hv in Hk.
      destruct (m' !! prim); [|done]. injection Hk as Hb.
      rewrite bool_decide_eq_true_2 in Hb by done.
      symmetry in Hb. by apply bool_decide_eq_true_1 in Hb.
    + intros k. specialize (Hk k). rewrite !topoOf_lookup in Hk.
      destruct (m !! k), (m' !! k); try done; split; eauto.
  - intros [<- Hdom]. by apply topoOf_same_keys.
Qed.

(** X15. On a constructed Sentinel that is not closed, a pass that succeeds
    calls the TopoChanged hook with the difference between the topology
    that [primAddr] and [clients] gave before the pass and the one they give
    after it. The hook is not called exactly when the primary and the set
    of addresses are the same as before; and a node is reported as Changed
    only if it is the previous or the new primary. *)
Theorem ensureClientsT_constructed (o1 o2 o3 o4 o5 : Order) (tracer : bool)
    (pf : ClientFunc) (conn : Conn) (sc sc' : Sentinel) (evs : list Event) :
  reachable sc → closed sc = false →
  ensureClients o1 o2 o3 pf conn sc = (Ret None, sc', evs) →
  ensureClientsT o1 o2 o3 o4 o5 tracer pf conn sc =
    (Ret (None,
          traceTopoChanged o4 o5 tracer
            (topoOf (primAddr sc) (clients sc))
            (topoOf (primAddr sc') (clients sc'))), sc', evs) ∧
  (traceTopoChanged o4 o5 true
     (topoOf (primAddr sc) (clients sc))
     (topoOf (primAddr sc') (clients sc')) = None ↔
   primAddr sc' = primAddr sc ∧
   ∀ k, is_Some (clients sc' !! k) ↔ is_Some (clients sc !! k)) ∧
  (∀ tc n,
     traceTopoChanged o4 o5 true
       (topoOf (primAddr sc) (clients sc))
       (topoOf (primAddr sc') (clients sc')) = Some tc →
     n ∈ Changed tc →
     NodeAddr n = primAddr sc ∨ NodeAddr n = primAddr sc').
Proof.
  intros Hr Hc Hrun. pose proof (reachable_wf _ Hr) as [[c Hprim] Hnn].
  destruct c as [p|]; [|by apply Hnn in Hprim].
  pose proof Hrun as Hinv.
  apply ensureClients_success_inv in Hinv
    as (primM & secMM & nc1 & evs1 & Hreply & Hall & Hne & Hp' & Hpk & Hkeys).
  split; [|split].
  - rewrite ensureClientsT_ensureClients, Hrun, Hreply.
    rewrite (ensureAll_returns_primary _ _ _ _ _ p) in Hall by done.
    injection Hall as _ <- _.
    rewrite Hp'.
    by rewrite (topoOf_same_keys (mAddr primM) (clients sc') (desired primM secMM)).
  - rewrite traceTopoChanged_None_iff.
    rewrite topoOf_eq_iff; [|by rewrite Hprim|by rewrite Hp'; apply Hkeys].
    split; intros [Heq Hdom]; (split; [done|]); intros k; by rewrite Hdom.
  - intros tc n Htc Hin.
    destruct (traceTopoChanged_lists o4 o5 (topoOf (primAddr sc) (clients sc))
                (topoOf (primAddr sc') (clients sc')))
      as (added & removed & changed & _ & _ & Hch & Heq).
    rewrite Heq in Htc. case_decide; [done|]. injection Htc as <-. cbn in Hin.
    rewrite Hch in Hin. apply list_elem_of_fmap in Hin as ([k n'] & -> & Hin).
    apply elem_of_map_to_list, map_lookup_filter_Some in Hin as [Hn Hrole].
    unfold roleChanged in Hrole. cbn in Hrole. cbn.
    rewrite topoOf_lookup in Hn, Hrole.
    destruct (clients sc' !! k); [|done]. injection Hn as <-.
    destruct (clients sc !! k); [|done]. cbn.
    destruct (decide (k = primAddr sc)) as [|Hne1]; [by left|].
    destruct (decide (k = primAddr sc')) as [|Hne2]; [by right|].
    exfalso. apply Hrole.
    by rewrite !bool_decide_eq_false_2.
Qed.

(** X16. In the pass that NewSentinel runs (no primary yet, no clients),
    every pool is installed into [clients] before the commit takes its
    snapshot of the previous topology; so the hook, when it is set, is
    called with the new primary as the only Changed node and with nothing
    Added or Removed: the replicas are not reported. *)
Theorem ensureClientsT_first_pass (o1 o2 o3 o4 o5 : Order) (pf : ClientFunc)
    (conn : Conn) (sc sc' : Sentinel) (evs : list Event) :
  closed sc = false → primAddr sc = "" → clients sc = ∅ →
  ensureClients o1 o2 o3 pf conn sc = (Ret None, sc', evs) →
  ensureClientsT o1 o2 o3 o4 o5 true pf conn sc =
    (Ret (None, Some (mkTopoChanged [] [] [mkNodeInfo (primAddr sc') true])),
     sc', evs).
Proof.
  intros Hc Hp Hempty Hrun. pose proof Hrun as Hinv.
  apply ensureClients_success_inv in Hinv
    as (primM & secMM & nc1 & evs1 & Hreply & Hall & Hne & Hp' & Hpk & Hkeys).
  rewrite ensureClientsT_ensureClients, Hrun, Hreply.
  assert (bootstrapping sc) as Hb.
  { split; [done|]. split; [done|]. split; [by rewrite Hempty|].
    intros k v Hk. by rewrite Hempty, lookup_empty in Hk. }
  apply ensureAll_bootstrap in Hall as (Hb1 & _ & _ & Hout1 & Hin1);
    [|apply NoDup_fst_range| |done].
  2:{ intros a Ha. split; [by apply Hne|]. by rewrite Hempty. }
  specialize (Hin1 nc1 eq_refl).
  set (sc1 := beforeCommit o1 o2 pf primM secMM sc) in *.
  assert (∀ k, is_Some (clients sc1 !! k) ↔ is_Some (desired primM secMM !! k))
    as Hsame.
  { intros k. split.
    - intros Hk.
      destruct (decide (k ∈ (range o1 (desired primM secMM)).*1)) as [Hin|Hnot];
        [by apply elem_of_range_keys in Hin|].
      rewrite Hout1 in Hk by done. rewrite Hempty in Hk.
      by apply is_Some_None in Hk.
    - intros Hk. apply Hin1. by apply elem_of_range_keys. }
  assert (primAddr sc1 = "") as -> by apply Hb1.
  assert (∀ k, is_Some (desired primM secMM !! k) → k ≠ "") as Hne0.
  { intros k Hk. apply Hne. by apply elem_of_range_keys. }
  destruct (traceTopoChanged_lists o4 o5 (topoOf "" (clients sc1))
              (topoOf (mAddr primM) (desired primM secMM)))
    as (added & removed & changed & Ha & Hr & Hch & ->).
  assert (added = []) as ->.
  { apply Permutation_nil_r. rewrite Ha. apply Permutation_nil_r, filter_map_empty.
    intros k v Hk Hnone. cbn in Hnone. rewrite topoOf_lookup in Hk, Hnone.
    destruct (desired primM secMM !! k) eqn:Hd; [|done].
    destruct (proj2 (Hsame k)) as [? Hs]; [by rewrite Hd|]. by rewrite Hs in Hnone. }
  assert (removed = []) as ->.
  { apply Permutation_nil_r. rewrite Hr. apply Permutation_nil_r, filter_map_empty.
    intros k v Hk Hnone. cbn in Hnone. rewrite topoOf_lookup in Hk, Hnone.
    destruct (clients sc1 !! k) eqn:Hd; [|done].
    destruct (proj1 (Hsame k)) as [? Hs]; [by rewrite Hd|]. by rewrite Hs in Hnone. }
  assert (filter (roleChanged (topoOf "" (clients sc1)))
            (topoOf (mAddr primM) (desired primM secMM))
          = {[ mAddr primM := mkNodeInfo (mAddr primM) true ]}) as Hfilter.
  { apply map_eq. intros k. apply option_eq. intros n.
    rewrite map_lookup_filter_Some, lookup_singleton_Some.
    unfold roleChanged. cbn. rewrite !topoOf_lookup. split.
    - intros [Hn Hrole].
      destruct (desired primM secMM !! k) eqn:Hd; [|done]. injection Hn as <-.
      destruct (clients sc1 !! k); [|done].
      assert (k ≠ "") as Hk0 by (apply Hne0; by rewrite Hd).
      rewrite (bool_decide_eq_false_2 (k = "")) in Hrole by done.
      destruct (decide (k = mAddr primM)) as [->|Hnp].
      + by rewrite bool_decide_eq_true_2.
      + exfalso. apply Hrole. by rewrite bool_decide_eq_false_2.
    - intros [<- <-]. destruct Hpk as [v Hv]. rewrite Hv.
      destruct (proj2 (Hsame (mAddr primM))) as [w Hw]; [by rewrite Hv|].
      rewrite Hw. rewrite bool_decide_eq_true_2 by done. split; [done|].
      rewrite bool_decide_eq_false_2; [done|]. apply Hne0. by rewrite Hv. }
  rewrite Hfilter, map_to_list_singleton in Hch. cbn in Hch.
  apply Permutation_singleton_r in Hch as ->.
  cbn. by rewrite Hp'.
Qed.

(** ** innerSpin *)

Lemma reachable_ensureSentinelAddrs conn sc :
  reachable sc → reachable (state_of (ensureSentinelAddrs conn sc)).
Proof. intros Hr. eapply reachable_step; [done|apply step_ensureSentinelAddrs]. Qed.

Lemma reachable_ensureClients o1 o2 o3 pf conn sc :
  reachable sc → reachable (state_of (ensureClients o1 o2 o3 pf conn sc)).
Proof. intros Hr. eapply reachable_step; [done|apply step_ensureClients]. Qed.

Lemma spinLoop_constructed addr b script tests sc :
  reachable sc →
  ∃ res sc' evs,
    spinLoop addr b script tests sc = (Ret res, sc', evs) ∧ reachable sc'.
Proof.
  revert b tests sc. induction script as [|p rest IH]; intros b tests sc Hr;
    cbn [spinLoop].
  - unfold ret. eauto.
  - unfold bind.
    pose proof (reachable_ensureSentinelAddrs
      (mkConn addr (pass_masterSlaves p) (pass_sentinels p)) sc Hr) as Hr1.
    destruct (ensureSentinelAddrs_run
      (mkConn addr (pass_masterSlaves p) (pass_sentinels p)) sc)
      as (err & sc1 & Hrun1 & _).
    rewrite Hrun1 in Hr1 |- *. unfold state_of in Hr1; cbn in Hr1.
    destruct err as [e|]; [unfold ret; eauto|].
    pose proof (reachable_ensureClients (pass_o1 p) (pass_o2 p) (pass_o3 p)
      (pass_pf p) (mkConn addr (pass_masterSlaves p) (pass_sentinels p)) sc1 Hr1)
      as Hr2.
    destruct (ensureClients_no_panic (pass_o1 p) (pass_o2 p) (pass_o3 p)
      (pass_pf p) (mkConn addr (pass_masterSlaves p) (pass_sentinels p)) sc1)
      as (err & sc2 & evs2 & Hrun2); [apply reachable_wf, Hr1|].
    rewrite Hrun2 in Hr2 |- *. unfold state_of in Hr2; cbn in Hr2.
    destruct err as [e|]; [unfold ret; cbn; eauto|].
    destruct (pass_ping p) as [e|]; [unfold ret; cbn; eauto|].
    destruct (pass_wake p).
    + destruct (IH false (if b then tests ++ ["switch-master completed"] else tests)
                  sc2 Hr2) as (res & sc' & evs & -> & Hr').
      cbn. eauto.
    + destruct (IH true (if b then tests ++ ["switch-master completed"] else tests)
                  sc2 Hr2) as (res & sc' & evs & -> & Hr').
      cbn. eauto.
    + unfold ret. cbn. eauto.
Qed.

(** X17. Started on a constructed Sentinel, innerSpin never panics, however
    long it runs and whatever the Sentinels answer: the dial gives it a
    connection or an error, never neither, and no pass dereferences a nil
    client. The Sentinel it leaves behind is again a constructed one. *)
Theorem innerSpin_never_panics (o : Order) (cf : ConnFunc) (script : list Pass)
    (sc : Sentinel) :
  reachable sc →
  ∃ res sc' evs,
    innerSpin o cf script sc = (Ret res, sc', evs) ∧ reachable sc'.
Proof.
  intros Hr. unfold innerSpin, bind.
  destruct (dialSentinel_conn_xor_err o cf sc) as [[c ->]|[e ->]].
  - by apply reachable_known in Hr as [? _].
  - destruct (spinLoop_constructed (Addr c) false script [] sc Hr)
      as (res & sc' & evs & -> & Hr'). cbn. eauto.
  - unfold ret. cbn. eauto.
Qed.

Lemma spinLoop_tests addr b script tests sc sc' evs tests' :
  spinLoop addr b script tests sc = (Ret (StillRunning, tests'), sc', evs) →
  tests' =
    tests ++ replicate
      ((if b then match script with [] => 0 | _ :: _ => 1 end else 0)
       + switchesBefore script)%nat
      "switch-master completed".
Proof.
  revert b tests sc sc' evs tests'.
  induction script as [|p rest IH]; intros b tests sc sc' evs tests';
    cbn [spinLoop].
  - unfold ret. intros [= <- <- <-]. destruct b; cbn; by rewrite app_nil_r.
  - unfold bind.
    destruct (ensureSentinelAddrs _ sc) as [[[[e|]|msg] sc1] evs1]; [done| |done].
    destruct (ensureClients _ _ _ _ _ sc1) as [[[[e|]|msg] sc2] evs2];
      [done| |done].
    destruct (pass_ping p) as [e|]; [done|].
    assert (∀ (b' : bool) ts,
      (match pass_wake p with WakeSwitchMaster => true | _ => false end) = b' →
      ts = (if b then tests ++ ["switch-master completed"] else tests) ++
           replicate ((if b' then match rest with [] => 0 | _ :: _ => 1 end
                       else 0) + switchesBefore rest)%nat
                     "switch-master completed" →
      ts = tests ++ replicate ((if b then 1 else 0) + switchesBefore (p :: rest))%nat
                              "switch-master completed") as Hcount.
    { intros b' ts Hb' ->. cbn [switchesBefore].
      destruct rest as [|q rest'].
      - destruct b, b'; cbn; by rewrite <- ?app_assoc.
      - destruct (pass_wake p), b; simplify_eq; cbn; by rewrite <- ?app_assoc. }
    destruct (pass_wake p) eqn:Hw; [| |done].
    + destruct (spinLoop addr false rest _ sc2) as [[[[res ts]|msg] sc3] evs3] eqn:Hrest;
        [|done].
      intros [= -> <- <- <-]. apply IH in Hrest. by apply (Hcount false).
    + destruct (spinLoop addr true rest _ sc2) as [[[[res ts]|msg] sc3] evs3] eqn:Hrest;
        [|done].
      intros [= -> <- <- <-]. apply IH in Hrest. by apply (Hcount true).
Qed.

(** X18. As long as innerSpin keeps running, it has called testEvent with
    "switch-master completed" once for every pass that a switch-master
    message woke and that was followed by a pass that succeeded, and never
    otherwise. *)
Theorem innerSpin_test_events (o : Order) (cf : ConnFunc) (script : list Pass)
    (sc sc' : Sentinel) (evs : list Event) (tests : list string) :
  innerSpin o cf script sc = (Ret (StillRunning, tests), sc', evs) →
  tests = replicate (switchesBefore script) "switch-master completed".
Proof.
  unfold innerSpin, bind.
  destruct (dialSentinel_run o cf sc) as [[conn err] ->].
  destruct err as [e|]; [done|]. destruct conn as [conn|]; [|done].
  destruct (spinLoop (Addr conn) false script [] sc)
    as [[[[res ts]|msg] sc1] evs1] eqn:Hloop; [|done].
  intros [= -> -> <- <-]. by apply spinLoop_tests in Hloop.
Qed.

(** ** The further properties at concrete inputs *)

Lemma Do_on_primary_witness :
  ∃ p, clients Ex.sc1 !! primAddr Ex.sc1 = Some (Some p) ∧
       Do Ex.act Ex.sc1 = (Ret (Ex.act p), Ex.sc1, [EvDo p]).
Proof.
  apply (Do_on_primary Ex.act Ex.sc1); [|reflexivity].
  apply (reachable_new Ex.orders (Ex.cf Ex.connP) Ex.pfOk None "mymaster"
           [Ex.sentinel1; Ex.sentinel2] Ex.sc1
           [EvCreate Ex.pool0; EvCommit Ex.P {[ Ex.P := Some Ex.pool0 ]}]).
  vm_compute. reflexivity.
Defined.

Lemma Close_closes_every_entry_witness :
  ∃ ps,
    Close [] Ex.sc2 = (Ret None, set_closed Ex.sc2, EvClose <$> ps) ∧
    ps ≡ₚ omap snd (map_to_list (clients Ex.sc2)).
Proof. apply (Close_closes_every_entry [] Ex.sc2). reflexivity. Defined.

Lemma closed_after_Close_witness :
  Do Ex.act (state_of (Close [] Ex.sc1)) =
    (Ret (Some errClosed), state_of (Close [] Ex.sc1), []).
Proof.
  apply (closed_after_Close [] [] Ex.cfDown Ex.pfOk Ex.act Ex.connP
           [Ex.reply "10.0.0.3" "26379"] Ex.sc1).
  reflexivity.
Defined.

Lemma SentinelAddrs_after_ensure_witness :
  ∃ l,
    SentinelAddrs [] Ex.sc1 = (Ret (l, None), Ex.sc1, []) ∧
    NoDup l ∧
    ∀ k, k ∈ l ↔
         k = Addr Ex.connP ∨
         ∃ m, m ∈ [Ex.reply "10.0.0.3" "26379"] ∧ k = mAddr m.
Proof.
  apply (SentinelAddrs_after_ensure [] Ex.connP [Ex.reply "10.0.0.3" "26379"]
           Ex.sc1 Ex.sc1).
  - reflexivity.
  - vm_compute. reflexivity.
Defined.

Lemma known_sentinels_never_empty_witness :
  sentinelAddrs Ex.sc1 ≠ ∅ ∧
  ∀ k v, sentinelAddrs Ex.sc1 !! k = Some v → v = true.
Proof.
  apply (known_sentinels_never_empty Ex.sc1).
  apply (reachable_new Ex.orders (Ex.cf Ex.connP) Ex.pfOk None "mymaster"
           [Ex.sentinel1; Ex.sentinel2] Ex.sc1
           [EvCreate Ex.pool0; EvCommit Ex.P {[ Ex.P := Some Ex.pool0 ]}]).
  vm_compute. reflexivity.
Defined.

Lemma dialSentinel_conn_or_error_witness :
  (∃ c, dialSentinel [] Ex.cfDown Ex.sc1 = (Ret (Some c, None), Ex.sc1, [])) ∨
  (∃ e, dialSentinel [] Ex.cfDown Ex.sc1 = (Ret (None, Some e), Ex.sc1, [])).
Proof.
  apply (dialSentinel_conn_or_error [] Ex.cfDown Ex.sc1).
  apply (reachable_new Ex.orders (Ex.cf Ex.connP) Ex.pfOk None "mymaster"
           [Ex.sentinel1; Ex.sentinel2] Ex.sc1
           [EvCreate Ex.pool0; EvCommit Ex.P {[ Ex.P := Some Ex.pool0 ]}]).
  vm_compute. reflexivity.
Defined.

Lemma dialSentinel_first_known_witness :
  dialSentinel [] (Ex.cf Ex.connP) Ex.scDown =
    (Ret (Some Ex.connP, None), Ex.scDown, []).
Proof.
  apply (dialSentinel_first_known [] (Ex.cf Ex.connP) Ex.scDown
           [] [] Ex.sentinel2 Ex.connP).
  - reflexivity.
  - vm_compute. reflexivity.
  - intros b Hb. by apply elem_of_nil in Hb.
  - vm_compute. reflexivity.
Defined.

Lemma ensureClients_topology_witness :
  ∃ primM secMM,
    masterSlaves Ex.connPS = Ok (primM, secMM) ∧
    primAddr Ex.sc2 = mAddr primM ∧
    (∀ k, is_Some (clients Ex.sc2 !! k) ↔
          k = mAddr primM ∨ ∃ m, m ∈ secMM ∧ k = mAddr m) ∧
    sentinelAddrs Ex.sc2 = sentinelAddrs Ex.sc1 ∧
    closed Ex.sc2 = closed Ex.sc1.
Proof.
  apply (ensureClients_topology [] [] [] Ex.pfOk Ex.connPS Ex.sc1 Ex.sc2
           [EvCommit Ex.P {[ Ex.P := Some Ex.pool0; Ex.S := Some Ex.pool0 ]}]).
  vm_compute. reflexivity.
Defined.

Lemma constructed_never_panics_witness :
  (∃ r sc' evs,
     ensureClients [] [] [] Ex.pfOk Ex.connPS Ex.sc1 = (Ret r, sc', evs)) ∧
  (∃ r evs, Do Ex.act Ex.sc1 = (Ret r, Ex.sc1, evs)) ∧
  (∃ r evs, DoSecondary [] Ex.pfOk Ex.act Ex.sc1 = (Ret r, Ex.sc1, evs)).
Proof.
  apply (constructed_never_panics [] [] [] Ex.pfOk Ex.connPS Ex.act Ex.sc1).
  apply (reachable_new Ex.orders (Ex.cf Ex.connP) Ex.pfOk None "mymaster"
           [Ex.sentinel1; Ex.sentinel2] Ex.sc1
           [EvCreate Ex.pool0; EvCommit Ex.P {[ Ex.P := Some Ex.pool0 ]}]).
  vm_compute. reflexivity.
Defined.

Lemma NewSentinel_unreachable_witness :
  ∃ a e,
    a ∈ [Ex.sentinel1; Ex.sentinel2] ∧ Ex.cfDown a = Err e ∧
    NewSentinel Ex.orders Ex.cfDown Ex.pfOk None "mymaster"
                [Ex.sentinel1; Ex.sentinel2] =
      (Ret (Some e), newSentinel "mymaster" [Ex.sentinel1; Ex.sentinel2], []).
Proof.
  apply (NewSentinel_unreachable Ex.orders Ex.cfDown Ex.pfOk None "mymaster"
           [Ex.sentinel1; Ex.sentinel2]).
  - discriminate.
  - intros a _. exists Ex.refused. reflexivity.
Defined.

Lemma NewSentinel_own_pools_witness :
  (∀ k v, clients Ex.scPS !! k = Some v → ∃ p, v = Some p ∧ pool_addr p = k) ∧
  (∀ k1 k2 p, clients Ex.scPS !! k1 = Some (Some p) →
              clients Ex.scPS !! k2 = Some (Some p) → k1 = k2).
Proof.
  apply (NewSentinel_own_pools Ex.orders (Ex.cf Ex.connPS) Ex.pfOk "mymaster"
           [Ex.sentinel1; Ex.sentinel2] Ex.scPS
           [EvCreate (mkPool 0 Ex.S); EvCreate (mkPool 1 Ex.P);
            EvCommit Ex.P {[ Ex.P := Some (mkPool 1 Ex.P);
                              Ex.S := Some (mkPool 0 Ex.S) ]}]).
  vm_compute. reflexivity.
Defined.


Lemma traceTopoChanged_spec_witness :
  Added (mkTopoChanged [mkNodeInfo Ex.S false] [] []) ≡ₚ
    (map_to_list (filter (λ kv, Ex.topoP !! kv.1 = None) Ex.topoPS)).*2.
Proof.
  apply (proj2 (proj2 (traceTopoChanged_spec [] [] Ex.topoP Ex.topoPS))
           (mkTopoChanged [mkNodeInfo Ex.S false] [] [])).
  vm_compute. reflexivity.
Defined.

Lemma ensureClientsT_constructed_witness :
  ensureClientsT [] [] [] [] [] true Ex.pfOk Ex.connPS Ex.sc1 =
    (Ret (None,
          traceTopoChanged [] [] true
            (topoOf (primAddr Ex.sc1) (clients Ex.sc1))
            (topoOf (primAddr Ex.sc2) (clients Ex.sc2))), Ex.sc2,
     [EvCommit Ex.P {[ Ex.P := Some Ex.pool0; Ex.S := Some Ex.pool0 ]}]).
Proof.
  apply (ensureClientsT_constructed [] [] [] [] [] true Ex.pfOk Ex.connPS
           Ex.sc1 Ex.sc2
           [EvCommit Ex.P {[ Ex.P := Some Ex.pool0; Ex.S := Some Ex.pool0 ]}]).
  - apply (reachable_new Ex.orders (Ex.cf Ex.connP) Ex.pfOk None "mymaster"
             [Ex.sentinel1; Ex.sentinel2] Ex.sc1
             [EvCreate Ex.pool0; EvCommit Ex.P {[ Ex.P := Some Ex.pool0 ]}]).
    vm_compute. reflexivity.
  - reflexivity.
  - vm_compute. reflexivity.
Defined.

Lemma ensureClientsT_first_pass_witness :
  ensureClientsT [] [] [] [] [] true Ex.pfOk Ex.connPS Ex.sc0 =
    (Ret (None, Some (mkTopoChanged [] [] [mkNodeInfo (primAddr Ex.scPS) true])),
     Ex.scPS,
     [EvCreate (mkPool 0 Ex.S); EvCreate (mkPool 1 Ex.P);
      EvCommit Ex.P {[ Ex.P := Some (mkPool 1 Ex.P);
                        Ex.S := Some (mkPool 0 Ex.S) ]}]).
Proof.
  apply (ensureClientsT_first_pass [] [] [] [] [] Ex.pfOk Ex.connPS Ex.sc0
           Ex.scPS); [reflexivity..|].
  vm_compute. reflexivity.
Defined.

Lemma innerSpin_never_panics_witness :
  ∃ res sc' evs,
    innerSpin [] (Ex.cf Ex.connP) Ex.script Ex.sc1 = (Ret res, sc', evs) ∧
    reachable sc'.
Proof.
  apply (innerSpin_never_panics [] (Ex.cf Ex.connP) Ex.script Ex.sc1).
  apply (reachable_new Ex.orders (Ex.cf Ex.connP) Ex.pfOk None "mymaster"
           [Ex.sentinel1; Ex.sentinel2] Ex.sc1
           [EvCreate Ex.pool0; EvCommit Ex.P {[ Ex.P := Some Ex.pool0 ]}]).
  vm_compute. reflexivity.
Defined.

Lemma innerSpin_test_events_witness :
  ["switch-master completed"] =
  replicate (switchesBefore Ex.script) "switch-master completed".
Proof.
  apply (innerSpin_test_events [] (Ex.cf Ex.connP) Ex.script Ex.sc1 Ex.sc2
           [EvCommit Ex.P {[ Ex.P := Some Ex.pool0 ]};
            EvCommit Ex.P {[ Ex.P := Some Ex.pool0 ]};
            EvCommit Ex.P {[ Ex.P := Some Ex.pool0; Ex.S := Some Ex.pool0 ]}]).
  vm_compute. reflexivity.
Defined.
